(** * mapset: the thread-safe set of golang-set (threadsafe.go)

    A shallow embedding of [threadSafeSet], the lock-guarded wrapper around
    the unsynchronised [threadUnsafeSet], together with the properties of
    its operations.

    Go values live on an explicit heap: map objects are shared by
    reference, a [threadSafeSet] struct owns a map reference and a
    [sync.RWMutex], and every method is a computation over that heap which
    may finish, panic, or block on a lock. *)

From stdpp Require Import base option countable gmap sets fin_sets list strings.
From Stdlib Require Import ZArith Permutation.

Set Warnings "-clear-no-such-hyp".

Local Open Scope Z_scope.
Local Open Scope nat_scope.

(** ** Values *)

(** Heap addresses. *)
Definition loc := positive.

(** A [*threadUnsafeSet]: the address of a variable of map type, either the
    field [s] of a [threadSafeSet] struct ([&o.s]) or a variable of its own
    ([&unionedSet]). *)
Inductive uptr :=
  | PField (a : loc)
  | PCell (c : loc).

(** The dynamic values an [interface{}] holds in this package: nil, scalars,
    the [OrderedPair] built by [CartesianProduct], and pointers to the two
    set variants. *)
Inductive value :=
  | VNil
  | VInt (n : Z)
  | VStr (t : string)
  | VPair (x y : value)
  | VUnsafe (p : uptr)
  | VSafe (a : loc).

(** A value of interface type [Set]: its dynamic type is one of the two
    variants, or the interface is nil. *)
Inductive SetI :=
  | ISafe (a : loc)
  | IUnsafe (p : uptr)
  | INil.

Definition SetI_value (x : SetI) : value :=
  match x with
  | ISafe a => VSafe a
  | IUnsafe p => VUnsafe p
  | INil => VNil
  end.

Global Instance uptr_eq_dec : EqDecision uptr.
Proof. solve_decision. Defined.

Global Instance value_eq_dec : EqDecision value.
Proof. solve_decision. Defined.

Global Instance SetI_eq_dec : EqDecision SetI.
Proof. solve_decision. Defined.

Global Instance uptr_countable : Countable uptr.
Proof.
  refine (inj_countable'
    (fun p => match p with PField a => inl a | PCell c => inr c end)
    (fun x => match x with inl a => PField a | inr c => PCell c end) _).
  by intros [].
Defined.

Fixpoint value_tree (v : value) : gen_tree (Z + string + uptr + loc) :=
  match v with
  | VNil => GenNode 0 []
  | VInt n => GenLeaf (inl (inl (inl n)))
  | VStr t => GenLeaf (inl (inl (inr t)))
  | VPair x y => GenNode 1 [value_tree x; value_tree y]
  | VUnsafe p => GenLeaf (inl (inr p))
  | VSafe a => GenLeaf (inr a)
  end.

Fixpoint tree_value (t : gen_tree (Z + string + uptr + loc)) : value :=
  match t with
  | GenLeaf (inl (inl (inl n))) => VInt n
  | GenLeaf (inl (inl (inr t))) => VStr t
  | GenLeaf (inl (inr p)) => VUnsafe p
  | GenLeaf (inr a) => VSafe a
  | GenNode 1 [x; y] => VPair (tree_value x) (tree_value y)
  | GenNode _ _ => VNil
  end.

Lemma tree_value_tree v : tree_value (value_tree v) = v.
Proof. induction v; simpl; congruence. Qed.

Global Instance value_countable : Countable value :=
  inj_countable' value_tree tree_value tree_value_tree.

(** ** The heap *)

(** [sync.RWMutex]: at most one writer, or any number of readers. *)
Record RWMutex := { writer : bool; readers : nat }.

Definition unlocked : RWMutex := {| writer := false; readers := 0 |}.

(** [type threadSafeSet struct { s threadUnsafeSet; l sync.RWMutex }]
    (the field is spelled [S] in one copy of the file and [s] in the other).
    [threadUnsafeSet] is a Go map type, so the field holds a reference to a
    map object. *)
Record threadSafeSet := { s : loc; l : RWMutex }.

(** What an execution does to locks and storage, in program order. *)
Inductive event :=
  | EvLock (a : loc)
  | EvUnlock (a : loc)
  | EvRLock (a : loc)
  | EvRUnlock (a : loc)
  | EvWrite (m : loc)    (* the map object [m] is updated in place *)
  | EvStore (a : loc).   (* the field [s] of the struct at [a] is assigned *)

Global Instance event_eq_dec : EqDecision event.
Proof. solve_decision. Defined.

(** - [maps]: the map objects; a [map[interface{}]struct{}] is the finite set
      of its keys;
    - [structs]: the [threadSafeSet] structs;
    - [cells]: variables of type [threadUnsafeSet] whose address is taken;
    - [tick]: how many [range] loops over a map have started;
    - [trace]: the events so far. *)
Record state := {
  maps : gmap loc (gset value);
  structs : gmap loc threadSafeSet;
  cells : gmap loc loc;
  tick : nat;
  trace : list event
}.

(** ** Computations *)

Inductive panic :=
  | TypeAssertion      (* interface conversion: x.(T) on another dynamic type *)
  | NilDereference     (* invalid memory address *)
  | BadUnlock.         (* unlock of an unlocked mutex *)

Inductive outcome (A : Type) :=
  | Ok (x : A) (σ : state)
  | Panics (e : panic)
  | Blocks.
Arguments Ok {A} x σ.
Arguments Panics {A} e.
Arguments Blocks {A}.

Definition M (A : Type) := state -> outcome A.

Global Instance M_ret : MRet M := fun A x σ => Ok x σ.

Global Instance M_bind : MBind M := fun A B k m σ =>
  match m σ with
  | Ok x σ' => k x σ'
  | Panics e => Panics e
  | Blocks => Blocks
  end.

Definition throw {A} (e : panic) : M A := fun _ => Panics e.

(** A goroutine that waits for a lock nobody will release. *)
Definition block {A} : M A := fun _ => Blocks.

Fixpoint for_each {A} (xs : list A) (body : A -> M unit) : M unit :=
  match xs with
  | [] => mret tt
  | x :: xs' => body x;; for_each xs' body
  end.

(** ** Primitive steps *)

Definition emit (e : event) : M unit := fun σ =>
  Ok tt {| maps := maps σ; structs := structs σ; cells := cells σ;
           tick := tick σ; trace := trace σ ++ [e] |}.

Definition get_struct (a : loc) : M threadSafeSet := fun σ =>
  match structs σ !! a with
  | Some t => Ok t σ
  | None => Panics NilDereference
  end.

Definition put_struct (a : loc) (t : threadSafeSet) : M unit := fun σ =>
  Ok tt {| maps := maps σ; structs := <[a := t]> (structs σ); cells := cells σ;
           tick := tick σ; trace := trace σ |}.

Definition with_lock (t : threadSafeSet) (k : RWMutex) : threadSafeSet :=
  {| s := s t; l := k |}.

(** [set.l.Lock()]: waits until there is no writer and no reader. *)
Definition Lock (a : loc) : M unit :=
  t ← get_struct a;
  if writer (l t) || negb (readers (l t) =? 0) then block
  else put_struct a (with_lock t {| writer := true; readers := 0 |});;
       emit (EvLock a).

(** [set.l.Unlock()]. *)
Definition Unlock (a : loc) : M unit :=
  t ← get_struct a;
  if writer (l t)
  then put_struct a (with_lock t {| writer := false; readers := readers (l t) |});;
       emit (EvUnlock a)
  else throw BadUnlock.

(** [set.l.RLock()]: waits until there is no writer. *)
Definition RLock (a : loc) : M unit :=
  t ← get_struct a;
  if writer (l t) then block
  else put_struct a (with_lock t {| writer := false; readers := S (readers (l t)) |});;
       emit (EvRLock a).

(** [set.l.RUnlock()]. *)
Definition RUnlock (a : loc) : M unit :=
  t ← get_struct a;
  match readers (l t) with
  | O => throw BadUnlock
  | S n => put_struct a (with_lock t {| writer := writer (l t); readers := n |});;
           emit (EvRUnlock a)
  end.

(** [set.s]: the map reference in the struct at [a]. *)
Definition field_s (a : loc) : M loc :=
  t ← get_struct a; mret (s t).

(** [set.s = m]. *)
Definition store_s (a : loc) (m : loc) : M unit :=
  t ← get_struct a;
  put_struct a {| s := m; l := l t |};;
  emit (EvStore a).

(** [*p] for [p : *threadUnsafeSet]. *)
Definition deref (p : uptr) : M loc :=
  match p with
  | PField a => field_s a
  | PCell c => fun σ =>
      match cells σ !! c with
      | Some m => Ok m σ
      | None => Panics NilDereference
      end
  end.

(** The keys of the map object [m]. *)
Definition map_keys (m : loc) : M (gset value) := fun σ =>
  match maps σ !! m with
  | Some X => Ok X σ
  | None => Panics NilDereference
  end.

(** An update in place of the map object [m]: every holder of the reference
    sees it. *)
Definition put_map (m : loc) (X : gset value) : M unit := fun σ =>
  Ok tt {| maps := <[m := X]> (maps σ); structs := structs σ;
           cells := cells σ; tick := tick σ; trace := trace σ |}.

Definition map_update (m : loc) (X : gset value) : M unit :=
  _ ← map_keys m;
  put_map m X;;
  emit (EvWrite m).

(** [make(threadUnsafeSet)], filled with [X]: a map object at an address
    not in use. *)
Definition make_map (X : gset value) : M loc := fun σ =>
  let m := fresh (dom (maps σ)) in
  Ok m {| maps := <[m := X]> (maps σ); structs := structs σ; cells := cells σ;
          tick := tick σ; trace := trace σ |}.

(** A variable [v := m] of type [threadUnsafeSet] whose address is taken. *)
Definition new_cell (m : loc) : M loc := fun σ =>
  let c := fresh (dom (cells σ)) in
  Ok c {| maps := maps σ; structs := structs σ; cells := <[c := m]> (cells σ);
          tick := tick σ; trace := trace σ |}.

(** [&threadSafeSet{s: m}]: the mutex starts as its zero value. *)
Definition new_struct (m : loc) : M loc := fun σ =>
  let a := fresh (dom (structs σ)) in
  Ok a {| maps := maps σ; structs := <[a := {| s := m; l := unlocked |}]> (structs σ);
          cells := cells σ; tick := tick σ; trace := trace σ |}.

(** The type assertions of [x] to [*threadSafeSet] and to [*threadUnsafeSet]. *)
Definition as_safe (x : SetI) : M loc :=
  match x with
  | ISafe a => mret a
  | _ => throw TypeAssertion
  end.

Definition as_unsafe (x : SetI) : M uptr :=
  match x with
  | IUnsafe p => mret p
  | _ => throw TypeAssertion
  end.

Definition value_as_unsafe (v : value) : M uptr :=
  match v with
  | VUnsafe p => mret p
  | _ => throw TypeAssertion
  end.

(** All the sublists of a list: one for each choice of keeping or dropping
    each element. *)
Fixpoint sublists {A} (xs : list A) : list (list A) :=
  match xs with
  | [] => [[]]
  | x :: r => sublists r ++ (cons x <$> sublists r)
  end.

(** ** Iteration over a map *)

Section Range.

(** Go leaves the order in which [range] visits a map unspecified, and it
    may differ from one loop to the next: [order k ks] is the order of the
    [k]-th loop over keys [ks]. *)
Variable order : nat -> list value -> list value.

Definition visit (X : gset value) : M (list value) := fun σ =>
  Ok (order (tick σ) (elements X))
     {| maps := maps σ; structs := structs σ; cells := cells σ;
        tick := S (tick σ); trace := trace σ |}.

(** [for elem := range m]: the keys of [m] in the order of this loop. *)
Definition range (m : loc) : M (list value) :=
  X ← map_keys m;
  visit X.

End Range.

(** ** The unsynchronised engine, [threadUnsafeSet] *)

(** threadunsafe.go is not among the sources: the engine is modelled from
    the specification, which describes it as the collaborator that "holds
    elements in a mapping-like structure, implements every set operation
    without any locking, and returns results as new instances of itself". *)

Module Unsafe.
Section Engine.

(** The order of iteration, as above. *)
Variable order : nat -> list value -> list value.

(** The codec of [encoding/json] for an array of elements: the bytes of an
    array, when every element can be encoded; the elements of the input,
    when it is a valid JSON array. Nothing relates the two. *)
Variable json_encode : list value -> option (list Byte.byte).
Variable json_decode : list Byte.byte -> option (list value).

(** Modelled from the spec: the engine's [Add], which is not among the
    sources. "true if the element was not already present (and is now
    inserted); false if already present". *)
Definition Add (set : uptr) (i : value) : M bool :=
  m ← deref set;
  X ← map_keys m;
  if decide (i ∈ X) then mret false
  else map_update m ({[i]} ∪ X);; mret true.

(** Modelled from the spec: the engine's [Contains]. "true iff every given
    element is present; vacuously true for zero elements". *)
Definition Contains (set : uptr) (i : list value) : M bool :=
  m ← deref set;
  X ← map_keys m;
  mret (forallb (fun v => bool_decide (v ∈ X)) i).

(** Modelled from the spec: the engine's [IsSubset]. "other must be the same
    concrete kind of set"; "true iff every element of receiver is in
    other". *)
Definition IsSubset (set : uptr) (other : SetI) : M bool :=
  o ← as_unsafe other;
  m ← deref set; X ← map_keys m;
  n ← deref o; Y ← map_keys n;
  mret (bool_decide (X ⊆ Y)).

(** Modelled from the spec: the engine's [IsProperSubset]. "true iff
    IsSubset holds and cardinalities differ". *)
Definition IsProperSubset (set : uptr) (other : SetI) : M bool :=
  o ← as_unsafe other;
  m ← deref set; X ← map_keys m;
  n ← deref o; Y ← map_keys n;
  mret (bool_decide (X ⊆ Y) && negb (size X =? size Y)).

(** Modelled from the spec: the engine's [Equal]. "true iff same cardinality
    and same elements". *)
Definition Equal (set : uptr) (other : SetI) : M bool :=
  o ← as_unsafe other;
  m ← deref set; X ← map_keys m;
  n ← deref o; Y ← map_keys n;
  mret ((size X =? size Y) && bool_decide (X = Y)).

(** Modelled from the spec: what the engine returns, "new instances of
    itself". A new instance holding [X] is a map object and a variable for
    it, both new. *)
Definition new_instance (X : gset value) : M SetI :=
  m ← make_map X;
  c ← new_cell m;
  mret (IUnsafe (PCell c)).

(** Modelled from the spec: the engine's set algebra. "the full set-algebra
    operations (each returning a new unsynchronized instance, never
    mutating inputs)"; "new Set per standard set algebra"; the operand
    "must be the same concrete kind of set". [algebra f] reads both sets
    and returns a new instance holding [f] of their elements. *)
Definition algebra (f : gset value -> gset value -> gset value)
    (set : uptr) (other : SetI) : M SetI :=
  o ← as_unsafe other;
  m ← deref set; X ← map_keys m;
  n ← deref o; Y ← map_keys n;
  new_instance (f X Y).

(** Modelled from the spec: the engine's [Union]. *)
Definition Union : uptr -> SetI -> M SetI := algebra (∪).

(** Modelled from the spec: the engine's [Intersect]. *)
Definition Intersect : uptr -> SetI -> M SetI := algebra (∩).

(** Modelled from the spec: the engine's [Difference]. *)
Definition Difference : uptr -> SetI -> M SetI := algebra (∖).

(** Modelled from the spec: the engine's [SymmetricDifference]; for {1, 2}
    and {2, 3} it is {1, 3}. *)
Definition SymmetricDifference : uptr -> SetI -> M SetI :=
  algebra (fun X Y => (X ∖ Y) ∪ (Y ∖ X)).

(** Modelled from the spec: the elements of a Cartesian product, the
    "ordered pairs (a,b) for a in receiver, b in other". *)
Definition pairs (X Y : gset value) : gset value :=
  list_to_set (a ← elements X; b ← elements Y; [VPair a b]).

(** Modelled from the spec: the engine's [CartesianProduct]. "new Set of
    ordered pairs (a,b) for a in receiver, b in other". *)
Definition CartesianProduct : uptr -> SetI -> M SetI := algebra pairs.

(** Modelled from the spec: the engine's [Clone]. "new Set with same
    elements, fully independent". *)
Definition Clone (set : uptr) : M SetI :=
  m ← deref set; X ← map_keys m;
  new_instance X.

(** Modelled from the spec: the members of the engine's power set, one new
    engine instance for each list of elements. *)
Fixpoint new_instances (subs : list (list value)) : M (list value) :=
  match subs with
  | [] => mret []
  | ys :: rest =>
      x ← new_instance (list_to_set ys);
      xs ← new_instances rest;
      mret (SetI_value x :: xs)
  end.

(** Modelled from the spec: the engine's [PowerSet]. "new Set containing
    every subset of receiver, including empty set and receiver itself,
    cardinality 2^n"; "each subset is itself a full Set instance". *)
Definition PowerSet (set : uptr) : M SetI :=
  m ← deref set; X ← map_keys m;
  subsets ← new_instances (sublists (elements X));
  new_instance (list_to_set subsets).

(** Modelled from the spec: the engine's [Pop]. "removes and returns an
    arbitrary element, or a none indicator if empty"; the indicator is the
    nil interface value. *)
Definition Pop (set : uptr) : M value :=
  m ← deref set;
  X ← map_keys m;
  ks ← range order m;
  match ks with
  | [] => mret VNil
  | item :: _ => map_update m (X ∖ {[item]});; mret item
  end.

(** Modelled from the spec: the engine's [Iter]. A "stream yielding every
    element, closed on completion"; the list is what a consumer that drains
    the stream receives. *)
Definition Iter (set : uptr) : M (list value) :=
  m ← deref set;
  range order m.

(** Modelled from the spec: the engine's [MarshalJSON]. It "emits a JSON
    array of the set's elements in arbitrary order"; the result is the
    bytes, or nothing with an error. *)
Definition MarshalJSON (set : uptr) : M (option (list Byte.byte)) :=
  m ← deref set;
  ks ← range order m;
  mret (json_encode ks).

(** Modelled from the spec: the engine's [UnmarshalJSON]. It "accepts a JSON
    array and replaces the receiver's contents with its elements (duplicates
    collapse per set semantics)"; on invalid JSON it "fails with a
    deserialization error". The result is whether an error is returned. *)
Definition UnmarshalJSON (set : uptr) (p : list Byte.byte) : M bool :=
  match json_decode p with
  | None => mret true
  | Some elems =>
      m ← deref set;
      map_update m (list_to_set elems);;
      mret false
  end.

End Engine.
End Unsafe.

(** ** The thread-safe wrapper, [threadSafeSet] (threadsafe.go) *)

Section ThreadSafe.

Variable order : nat -> list value -> list value.
Variable json_encode : list value -> option (list Byte.byte).
Variable json_decode : list Byte.byte -> option (list value).

(** [newThreadSafeSet]; the result is the address where the new struct is
    kept. *)
Definition newThreadSafeSet : M loc :=
  m ← make_map ∅;
  new_struct m.

Definition Add (set : loc) (i : value) : M bool :=
  Lock set;;
  ret ← Unsafe.Add (PField set) i;
  Unlock set;;
  mret ret.

Definition Contains (set : loc) (i : list value) : M bool :=
  RLock set;;
  ret ← Unsafe.Contains (PField set) i;
  RUnlock set;;
  mret ret.

Definition IsSubset (set : loc) (other : SetI) : M bool :=
  o ← as_safe other;
  RLock set;;
  RLock o;;
  ret ← Unsafe.IsSubset (PField set) (IUnsafe (PField o));
  RUnlock set;;
  RUnlock o;;
  mret ret.

(** The two deferred [RUnlock] calls run when the function returns, the
    last one first. *)
Definition IsProperSubset (set : loc) (other : SetI) : M bool :=
  o ← as_safe other;
  RLock set;;
  RLock o;;
  ret ← Unsafe.IsProperSubset (PField set) (IUnsafe (PField o));
  RUnlock o;;
  RUnlock set;;
  mret ret.

(** A call of [IsSubset] or [IsProperSubset] through the interface [Set]
    runs the method of the dynamic type. *)
Definition Set_IsSubset (x other : SetI) : M bool :=
  match x with
  | ISafe a => IsSubset a other
  | IUnsafe p => Unsafe.IsSubset p other
  | INil => throw NilDereference
  end.

Definition Set_IsProperSubset (x other : SetI) : M bool :=
  match x with
  | ISafe a => IsProperSubset a other
  | IUnsafe p => Unsafe.IsProperSubset p other
  | INil => throw NilDereference
  end.

Definition IsSuperset (set : loc) (other : SetI) : M bool :=
  Set_IsSubset other (ISafe set).

Definition IsProperSuperset (set : loc) (other : SetI) : M bool :=
  Set_IsProperSubset other (ISafe set).

(** The shape shared by [Union], [Intersect], [Difference],
    [SymmetricDifference] and [CartesianProduct]: both read locks, the
    engine's operation, its result asserted to be a [*threadUnsafeSet], and
    a new struct around the map of that result. *)
Definition binary (op : uptr -> SetI -> M SetI) (set : loc) (other : SetI) : M SetI :=
  o ← as_safe other;
  RLock set;;
  RLock o;;
  r ← op (PField set) (IUnsafe (PField o));
  unsafeResult ← as_unsafe r;
  m ← deref unsafeResult;
  ret ← new_struct m;
  RUnlock set;;
  RUnlock o;;
  mret (ISafe ret).

Definition Union : loc -> SetI -> M SetI := binary Unsafe.Union.
Definition Intersect : loc -> SetI -> M SetI := binary Unsafe.Intersect.
Definition Difference : loc -> SetI -> M SetI := binary Unsafe.Difference.
Definition SymmetricDifference : loc -> SetI -> M SetI :=
  binary Unsafe.SymmetricDifference.

Definition Clear (set : loc) : M unit :=
  Lock set;;
  m ← make_map ∅;
  store_s set m;;
  Unlock set.

(** [delete(set.s, i)]. *)
Definition Remove (set : loc) (i : value) : M unit :=
  Lock set;;
  m ← field_s set;
  X ← map_keys m;
  map_update m (X ∖ {[i]});;
  Unlock set.

(** [len(set.s)]. *)
Definition Cardinality (set : loc) : M nat :=
  RLock set;;
  m ← field_s set;
  X ← map_keys m;
  RUnlock set;;
  mret (size X).

(** The loop of [Each] over the map object [m]: [for elem := range set.s {
    if cb(elem) { break } }]. The callback is Go code of the caller, a
    computation on the same heap. [elems] are the keys not reached yet, in
    the order of this loop; a key the callback has removed from the map in
    the meantime is not produced, and a key it has added is passed over. *)
Fixpoint each_loop (m : loc) (elems : list value) (cb : value -> M bool) : M unit :=
  match elems with
  | [] => mret tt
  | elem :: rest =>
      X ← map_keys m;
      if decide (elem ∈ X)
      then cb elem ≫= fun stop : bool =>
           if stop then mret tt else each_loop m rest cb
      else each_loop m rest cb
  end.

Definition Each (set : loc) (cb : value -> M bool) : M unit :=
  RLock set;;
  m ← field_s set;
  elems ← range order m;
  each_loop m elems cb;;
  RUnlock set.

(** The goroutine that [Iter] and [Iterator] start, as the steps it takes: it
    has not run yet; it holds the read lock and has the keys [rest] left to
    send; it has left the loop and closes the channel; it has released the
    lock and ended. *)
Inductive goroutine :=
  | GoStart
  | GoSending (rest : list value)
  | GoClosing
  | GoDone.

(** What the other side of the channels does when the goroutine is at
    [ch <- elem]: it receives the element, or the stop channel fires (for
    [Iter], which has none, it always receives). *)
Inductive offer :=
  | Receive
  | Stop.

(** One step of the goroutine of [Iterator], with the element it hands over,
    if any: [set.l.RLock()] and the start of the loop; one [select]; 
    [close(ch)]; [set.l.RUnlock()]. *)
Definition Iterator_step (set : loc) (g : goroutine) (o : offer)
    : M (goroutine * option value) :=
  match g with
  | GoStart =>
      RLock set;;
      m ← field_s set;
      elems ← range order m;
      mret (GoSending elems, None)
  | GoSending (elem :: rest) =>
      match o with
      | Stop => mret (GoClosing, None)
      | Receive => mret (GoSending rest, Some elem)
      end
  | GoSending [] => mret (GoClosing, None)
  | GoClosing => RUnlock set;; mret (GoDone, None)
  | GoDone => mret (GoDone, None)
  end.

(** One step of the goroutine of [Iter]: the same loop without the stop
    channel. *)
Definition Iter_step (set : loc) (g : goroutine) : M (goroutine * option value) :=
  Iterator_step set g Receive.

(** The goroutine of [Iterator] run against the offers [os], one step for
    each, with the elements handed over. *)
Fixpoint Iterator_run (set : loc) (g : goroutine) (os : list offer)
    : M (goroutine * list value) :=
  match os with
  | [] => mret (g, [])
  | o :: os' =>
      r ← Iterator_step set g o;
      r' ← Iterator_run set r.1 os';
      mret (r'.1, option_list r.2 ++ r'.2)
  end.

(** The goroutine of [Iter] run for [n] steps against a consumer that
    receives: [for x := range set.Iter()]. *)
Definition Iter_run (set : loc) (g : goroutine) (n : nat)
    : M (goroutine * list value) :=
  Iterator_run set g (replicate n Receive).

Definition Equal (set : loc) (other : SetI) : M bool :=
  o ← as_safe other;
  RLock set;;
  RLock o;;
  ret ← Unsafe.Equal (PField set) (IUnsafe (PField o));
  RUnlock set;;
  RUnlock o;;
  mret ret.

Definition Clone (set : loc) : M SetI :=
  RLock set;;
  r ← Unsafe.Clone (PField set);
  unsafeClone ← as_unsafe r;
  m ← deref unsafeClone;
  ret ← new_struct m;
  RUnlock set;;
  mret (ISafe ret).

Definition PowerSet (set : loc) : M SetI :=
  RLock set;;
  r ← Unsafe.PowerSet (PField set);
  unsafePowerSet ← as_unsafe r;
  RUnlock set;;
  m0 ← make_map ∅;
  ret ← new_struct m0;
  ch ← Unsafe.Iter order unsafePowerSet;
  for_each ch (fun subset =>
    unsafeSubset ← value_as_unsafe subset;
    m ← deref unsafeSubset;
    x ← new_struct m;
    _ ← Add ret (VSafe x);
    mret tt);;
  mret (ISafe ret).

Definition Pop (set : loc) : M value :=
  Lock set;;
  ret ← Unsafe.Pop order (PField set);
  Unlock set;;
  mret ret.

Definition CartesianProduct : loc -> SetI -> M SetI :=
  binary Unsafe.CartesianProduct.

Definition ToSlice (set : loc) : M (list value) :=
  _ ← Cardinality set;
  RLock set;;
  m ← field_s set;
  elems ← range order m;
  RUnlock set;;
  mret (foldl (fun keys elem => keys ++ [elem]) [] elems).

(** The result is the bytes, or nothing with an error. *)
Definition MarshalJSON (set : loc) : M (option (list Byte.byte)) :=
  RLock set;;
  b ← Unsafe.MarshalJSON order json_encode (PField set);
  RUnlock set;;
  mret b.

(** The result is whether an error is returned. *)
Definition UnmarshalJSON (set : loc) (p : list Byte.byte) : M bool :=
  RLock set;;
  err ← Unsafe.UnmarshalJSON json_decode (PField set) p;
  RUnlock set;;
  mret err.

End ThreadSafe.

(** ** Vocabulary of the specifications *)

(** The state [σ] after the further events [es]. *)
Definition log (es : list event) (σ : state) : state :=
  {| maps := maps σ; structs := structs σ; cells := cells σ;
     tick := tick σ; trace := trace σ ++ es |}.

(** The thread-safe set at [a] has exactly the elements [X]. *)
Definition contents (σ : state) (a : loc) (X : gset value) : Prop :=
  exists t, structs σ !! a = Some t /\ maps σ !! s t = Some X.

(** The computation finishes: no panic, no wait for ever. *)
Definition succeeds {A} (m : M A) (σ : state) : Prop :=
  exists x σ', m σ = Ok x σ'.

(** [guarded a m held es]: in the events [es], every update of the map object
    [m] and every assignment to the field [s] of the struct at [a] happens
    while the write lock of [a] is held; [held] tells whether it is held
    before the first event. *)
Fixpoint guarded (a m : loc) (held : bool) (es : list event) : bool :=
  match es with
  | [] => true
  | EvLock a' :: es' => guarded a m (if decide (a' = a) then true else held) es'
  | EvUnlock a' :: es' => guarded a m (if decide (a' = a) then false else held) es'
  | EvWrite m' :: es' =>
      (if decide (m' = m) then held else true) && guarded a m held es'
  | EvStore a' :: es' =>
      (if decide (a' = a) then held else true) && guarded a m held es'
  | _ :: es' => guarded a m held es'
  end.

(** The order that visits the keys as they are listed, and a decoder that
    reads every input as the array [[1, 2]]: instances at which the
    theorems below are evaluated. *)
Definition order_listed : nat -> list value -> list value := fun _ ks => ks.

Definition decode_12 : list Byte.byte -> option (list value) :=
  fun _ => Some [VInt 1; VInt 2].

(** A state with two thread-safe sets: {1, 2, 3} at address 1 and {2, 3} at
    address 2, nobody holding a lock. *)
Definition two_sets : state :=
  {| maps := {[ 1%positive := {[VInt 1; VInt 2; VInt 3]};
                2%positive := {[VInt 2; VInt 3]} ]};
     structs := {[ 1%positive := {| s := 1%positive; l := unlocked |};
                   2%positive := {| s := 2%positive; l := unlocked |} ]};
     cells := ∅; tick := 0; trace := [] |}.

(** The operations that take a second set and return a new one. *)
Definition binary_operations : list (loc -> SetI -> M SetI) :=
  [Union; Intersect; Difference; SymmetricDifference; CartesianProduct].

(** Every call that returns a [Set], on the receiver [a] and, where there is
    one, the operand at [b]. *)
Definition producers (order : nat -> list value -> list value)
    (a b : loc) : list (M SetI) :=
  [Union a (ISafe b); Intersect a (ISafe b); Difference a (ISafe b);
   SymmetricDifference a (ISafe b); CartesianProduct a (ISafe b);
   Clone a; PowerSet order a].

(** Each of the eight operations on two sets finishes when the receiver is
    the readable set at [d] and the operand is [r]. *)
Definition accepted_as_operand (σ : state) (d : loc) (r : SetI) : Prop :=
  succeeds (IsSubset d r) σ /\ succeeds (IsProperSubset d r) σ /\
  succeeds (Union d r) σ /\ succeeds (Intersect d r) σ /\
  succeeds (Difference d r) σ /\ succeeds (SymmetricDifference d r) σ /\
  succeeds (Equal d r) σ /\ succeeds (CartesianProduct d r) σ.

(** The same two sets while another goroutine holds the read lock of the
    first. *)
Definition being_read : state :=
  {| maps := maps two_sets;
     structs := <[ 1%positive := {| s := 1%positive;
                                    l := {| writer := false; readers := 1 |} |} ]>
                  (structs two_sets);
     cells := ∅; tick := 0; trace := [] |}.

(** The keys a loop passes to its callback when the callback asks to stop at
    the keys where [p] holds: those up to the first such key, it included. *)
Fixpoint until (p : value -> bool) (ks : list value) : list value :=
  match ks with
  | [] => []
  | k :: rest => if p k then [k] else k :: until p rest
  end.

(** The maps, structs and lock states of [σ'] are those of [σ]. *)
Definition same_heap (σ σ' : state) : Prop :=
  maps σ' = maps σ /\ structs σ' = structs σ /\ cells σ' = cells σ.

(** No lock is held, and the map of every set exists. *)
Definition quiescent (σ : state) : Prop :=
  forall a t, structs σ !! a = Some t ->
              l t = unlocked /\ is_Some (maps σ !! s t).

(** The computation finishes and leaves a heap where no lock is held. *)
Definition finishes_quiescent {A} (m : M A) (σ : state) : Prop :=
  exists x σ', m σ = Ok x σ' /\ quiescent σ'.

(** The two sets while a goroutine holds the write lock of the first. *)
Definition being_written : state :=
  {| maps := maps two_sets;
     structs := <[ 1%positive := {| s := 1%positive;
                                    l := {| writer := true; readers := 0 |} |} ]>
                  (structs two_sets);
     cells := ∅; tick := 0; trace := [] |}.

(** An encoder that writes nothing, at which theorems are evaluated. *)
Definition encode_empty : list value -> option (list Byte.byte) :=
  fun _ => Some [].

(** ** Running the primitive steps *)

Lemma run_bind {A B} (m : M A) (k : A -> M B) σ x σ' :
  m σ = Ok x σ' -> (m ≫= k) σ = k x σ'.
Proof. intros H. unfold mbind, M_bind. by rewrite H. Qed.

Lemma fresh_dom_None {A} (S : gmap loc A) : S !! fresh (dom S) = None.
Proof. apply not_elem_of_dom, is_fresh. Qed.

Lemma fresh_dom_ne {A} (S : gmap loc A) a t :
  S !! a = Some t -> fresh (dom S) ≠ a.
Proof. intros H E. rewrite <- E, fresh_dom_None in H. done. Qed.

Lemma foldl_snoc {A} (acc xs : list A) :
  foldl (fun keys elem => keys ++ [elem]) acc xs = acc ++ xs.
Proof.
  revert acc. induction xs as [|x xs IH]; intros acc; simpl.
  - by rewrite app_nil_r.
  - rewrite IH, <- app_assoc. done.
Qed.

(** Unfold one method down to lookups in the heap and evaluate them. *)
Ltac unfold_steps :=
  unfold Unsafe.algebra, Unsafe.new_instance, Unsafe.Add, Unsafe.Contains,
    Unsafe.IsSubset, Unsafe.IsProperSubset, Unsafe.Equal, Unsafe.Clone,
    Unsafe.Pop, Unsafe.Iter, range, visit, Unsafe.UnmarshalJSON,
    Lock, Unlock, RLock, RUnlock, store_s, deref, field_s, map_update,
    put_map, get_struct, put_struct, emit, map_keys, make_map, new_cell,
    new_struct, as_unsafe, as_safe, value_as_unsafe, with_lock, throw, block,
    log;
  unfold mbind, M_bind, mret, M_ret; simpl.

Ltac eval_heap :=
  repeat (simplify_map_eq/=;
          rewrite ?dom_insert_lookup_L by (by simplify_map_eq)).

(** Two outcomes are equal when the components of their states are: maps by
    their lookups, traces up to the bracketing of [++]. *)
Lemma Ok_eq {A} (x : A) m1 m2 s1 s2 c1 c2 k1 k2 (tr1 tr2 : list event) :
  m1 = m2 -> s1 = s2 -> c1 = c2 -> k1 = k2 -> tr1 = tr2 ->
  Ok x {| maps := m1; structs := s1; cells := c1; tick := k1; trace := tr1 |} =
  Ok x {| maps := m2; structs := s2; cells := c2; tick := k2; trace := tr2 |}.
Proof. by intros -> -> -> -> ->. Qed.

Ltac same_map :=
  first [ done
        | apply map_eq; intros ?;
          repeat (rewrite lookup_insert; case_decide; simplify_eq/=; try done);
          try done ].

Ltac same_state :=
  apply Ok_eq;
  [ same_map | same_map | same_map | done
  | first [ done | by rewrite <- ?app_assoc ] ].

(** ** What each method does to the heap *)

Section Runs.

Variable order : nat -> list value -> list value.
Variable json_decode : list Byte.byte -> option (list value).

Lemma binary_run f a b ta tb X Y σ :
  structs σ !! a = Some ta -> structs σ !! b = Some tb ->
  writer (l ta) = false -> writer (l tb) = false ->
  maps σ !! s ta = Some X -> maps σ !! s tb = Some Y ->
  binary (Unsafe.algebra f) a (ISafe b) σ =
    Ok (ISafe (fresh (dom (structs σ))))
       {| maps := <[fresh (dom (maps σ)) := f X Y]> (maps σ);
          structs := <[fresh (dom (structs σ)) :=
                         {| s := fresh (dom (maps σ)); l := unlocked |}]>
                       (structs σ);
          cells := <[fresh (dom (cells σ)) := fresh (dom (maps σ))]> (cells σ);
          tick := tick σ;
          trace := trace σ ++ [EvRLock a; EvRLock b; EvRUnlock a; EvRUnlock b] |}.
Proof.
  intros Ha Hb Hwa Hwb HX HY.
  pose proof (fresh_dom_ne _ _ _ Ha) as Hca.
  pose proof (fresh_dom_ne _ _ _ Hb) as Hcb.
  destruct ta as [ma [wa ra]], tb as [mb [wb rb]]; simpl in *; subst.
  unfold binary. unfold_steps. rewrite Ha. simpl.
  destruct (decide (a = b)) as [->|Hne]; eval_heap; same_state.
Qed.

Lemma IsSubset_run a b ta tb X Y σ :
  structs σ !! a = Some ta -> structs σ !! b = Some tb ->
  writer (l ta) = false -> writer (l tb) = false ->
  maps σ !! s ta = Some X -> maps σ !! s tb = Some Y ->
  IsSubset a (ISafe b) σ =
    Ok (bool_decide (X ⊆ Y))
       (log [EvRLock a; EvRLock b; EvRUnlock a; EvRUnlock b] σ).
Proof.
  intros Ha Hb Hwa Hwb HX HY.
  destruct ta as [ma [wa ra]], tb as [mb [wb rb]]; simpl in *; subst.
  unfold IsSubset. unfold_steps. rewrite Ha. simpl.
  destruct (decide (a = b)) as [->|Hne]; eval_heap; same_state.
Qed.

Lemma IsProperSubset_run a b ta tb X Y σ :
  structs σ !! a = Some ta -> structs σ !! b = Some tb ->
  writer (l ta) = false -> writer (l tb) = false ->
  maps σ !! s ta = Some X -> maps σ !! s tb = Some Y ->
  IsProperSubset a (ISafe b) σ =
    Ok (bool_decide (X ⊆ Y) && negb (size X =? size Y))
       (log [EvRLock a; EvRLock b; EvRUnlock b; EvRUnlock a] σ).
Proof.
  intros Ha Hb Hwa Hwb HX HY.
  destruct ta as [ma [wa ra]], tb as [mb [wb rb]]; simpl in *; subst.
  unfold IsProperSubset. unfold_steps. rewrite Ha. simpl.
  destruct (decide (a = b)) as [->|Hne]; eval_heap; same_state.
Qed.

Lemma Equal_run a b ta tb X Y σ :
  structs σ !! a = Some ta -> structs σ !! b = Some tb ->
  writer (l ta) = false -> writer (l tb) = false ->
  maps σ !! s ta = Some X -> maps σ !! s tb = Some Y ->
  Equal a (ISafe b) σ =
    Ok ((size X =? size Y) && bool_decide (X = Y))
       (log [EvRLock a; EvRLock b; EvRUnlock a; EvRUnlock b] σ).
Proof.
  intros Ha Hb Hwa Hwb HX HY.
  destruct ta as [ma [wa ra]], tb as [mb [wb rb]]; simpl in *; subst.
  unfold Equal. unfold_steps. rewrite Ha. simpl.
  destruct (decide (a = b)) as [->|Hne]; eval_heap; same_state.
Qed.

Lemma Clone_run a ta X σ :
  structs σ !! a = Some ta -> writer (l ta) = false ->
  maps σ !! s ta = Some X ->
  Clone a σ =
    Ok (ISafe (fresh (dom (structs σ))))
       {| maps := <[fresh (dom (maps σ)) := X]> (maps σ);
          structs := <[fresh (dom (structs σ)) :=
                         {| s := fresh (dom (maps σ)); l := unlocked |}]>
                       (structs σ);
          cells := <[fresh (dom (cells σ)) := fresh (dom (maps σ))]> (cells σ);
          tick := tick σ;
          trace := trace σ ++ [EvRLock a; EvRUnlock a] |}.
Proof.
  intros Ha Hwa HX.
  pose proof (fresh_dom_ne _ _ _ Ha) as Hca.
  destruct ta as [ma [wa ra]]; simpl in *; subst.
  unfold Clone. unfold_steps. rewrite Ha. simpl.
  eval_heap; same_state.
Qed.

Lemma Cardinality_run a ta X σ :
  structs σ !! a = Some ta -> writer (l ta) = false ->
  maps σ !! s ta = Some X ->
  Cardinality a σ = Ok (size X) (log [EvRLock a; EvRUnlock a] σ).
Proof.
  intros Ha Hwa HX.
  destruct ta as [ma [wa ra]]; simpl in *; subst.
  unfold Cardinality. unfold_steps. rewrite Ha. simpl.
  eval_heap; same_state.
Qed.

Lemma Contains_run a ta X i σ :
  structs σ !! a = Some ta -> writer (l ta) = false ->
  maps σ !! s ta = Some X ->
  Contains a i σ =
    Ok (forallb (fun v => bool_decide (v ∈ X)) i)
       (log [EvRLock a; EvRUnlock a] σ).
Proof.
  intros Ha Hwa HX.
  destruct ta as [ma [wa ra]]; simpl in *; subst.
  unfold Contains. unfold_steps. rewrite Ha. simpl.
  eval_heap; same_state.
Qed.

Lemma Add_run_new a m X i σ :
  structs σ !! a = Some {| s := m; l := unlocked |} ->
  maps σ !! m = Some X -> i ∉ X ->
  Add a i σ =
    Ok true {| maps := <[m := {[i]} ∪ X]> (maps σ); structs := structs σ;
               cells := cells σ; tick := tick σ;
               trace := trace σ ++ [EvLock a; EvWrite m; EvUnlock a] |}.
Proof.
  intros Ha HX Hi. unfold Add, unlocked in *. unfold_steps. rewrite Ha. simpl.
  eval_heap. rewrite ?decide_False by done. eval_heap. same_state.
Qed.

Lemma Add_run_old a m X i σ :
  structs σ !! a = Some {| s := m; l := unlocked |} ->
  maps σ !! m = Some X -> i ∈ X ->
  Add a i σ = Ok false (log [EvLock a; EvUnlock a] σ).
Proof.
  intros Ha HX Hi. unfold Add, unlocked in *. unfold_steps. rewrite Ha. simpl.
  eval_heap. rewrite ?decide_True by done. eval_heap. same_state.
Qed.

Lemma Remove_run a m X i σ :
  structs σ !! a = Some {| s := m; l := unlocked |} ->
  maps σ !! m = Some X ->
  Remove a i σ =
    Ok tt {| maps := <[m := X ∖ {[i]}]> (maps σ); structs := structs σ;
             cells := cells σ; tick := tick σ;
             trace := trace σ ++ [EvLock a; EvWrite m; EvUnlock a] |}.
Proof.
  intros Ha HX. unfold Remove, unlocked in *. unfold_steps. rewrite Ha. simpl.
  eval_heap. same_state.
Qed.

Lemma Clear_run a m σ :
  structs σ !! a = Some {| s := m; l := unlocked |} ->
  Clear a σ =
    Ok tt {| maps := <[fresh (dom (maps σ)) := ∅]> (maps σ);
             structs := <[a := {| s := fresh (dom (maps σ)); l := unlocked |}]>
                          (structs σ);
             cells := cells σ; tick := tick σ;
             trace := trace σ ++ [EvLock a; EvStore a; EvUnlock a] |}.
Proof.
  intros Ha. unfold Clear, unlocked in *. unfold_steps. rewrite Ha. simpl.
  eval_heap. same_state.
Qed.

Lemma Pop_run a m X σ :
  structs σ !! a = Some {| s := m; l := unlocked |} ->
  maps σ !! m = Some X ->
  Pop order a σ =
    match order (tick σ) (elements X) with
    | [] => Ok VNil {| maps := maps σ; structs := structs σ; cells := cells σ;
                       tick := S (tick σ);
                       trace := trace σ ++ [EvLock a; EvUnlock a] |}
    | item :: _ =>
        Ok item {| maps := <[m := X ∖ {[item]}]> (maps σ); structs := structs σ;
                   cells := cells σ; tick := S (tick σ);
                   trace := trace σ ++ [EvLock a; EvWrite m; EvUnlock a] |}
    end.
Proof.
  intros Ha HX. unfold Pop, unlocked in *. unfold_steps. rewrite Ha. simpl.
  eval_heap. destruct (order (tick σ) (elements X)); eval_heap; same_state.
Qed.

Lemma ToSlice_run a ta X σ :
  structs σ !! a = Some ta -> writer (l ta) = false ->
  maps σ !! s ta = Some X ->
  ToSlice order a σ =
    Ok (order (tick σ) (elements X))
       {| maps := maps σ; structs := structs σ; cells := cells σ;
          tick := S (tick σ);
          trace := trace σ ++ [EvRLock a; EvRUnlock a; EvRLock a; EvRUnlock a] |}.
Proof.
  intros Ha Hwa HX.
  destruct ta as [ma [wa ra]]; simpl in *; subst.
  unfold ToSlice, Cardinality. unfold_steps. rewrite Ha. simpl.
  eval_heap. rewrite foldl_snoc. simpl. same_state.
Qed.

Lemma UnmarshalJSON_run a ta X p elems σ :
  structs σ !! a = Some ta -> writer (l ta) = false ->
  maps σ !! s ta = Some X ->
  json_decode p = Some elems ->
  UnmarshalJSON json_decode a p σ =
    Ok false {| maps := <[s ta := list_to_set elems]> (maps σ);
                structs := structs σ; cells := cells σ; tick := tick σ;
                trace := trace σ ++ [EvRLock a; EvWrite (s ta); EvRUnlock a] |}.
Proof.
  intros Ha Hwa HX Hp.
  destruct ta as [ma [wa ra]]; simpl in *; subst.
  unfold UnmarshalJSON. unfold_steps. rewrite Hp, Ha. simpl.
  eval_heap. same_state.
Qed.

End Runs.

(** [newThreadSafeSet] makes an empty set with a free lock, at addresses not
    in use. *)
Lemma newThreadSafeSet_run σ :
  exists a m σ',
    newThreadSafeSet σ = Ok a σ' /\
    structs σ !! a = None /\ maps σ !! m = None /\
    structs σ' !! a = Some {| s := m; l := unlocked |} /\
    maps σ' !! m = Some ∅.
Proof.
  eexists _, _, _. split; [reflexivity|]. simpl.
  repeat split; try apply fresh_dom_None; apply lookup_insert_eq.
Qed.

(** What the new set of each binary operation holds. *)
Lemma binary_result f a b ta tb X Y σ :
  structs σ !! a = Some ta -> structs σ !! b = Some tb ->
  writer (l ta) = false -> writer (l tb) = false ->
  maps σ !! s ta = Some X -> maps σ !! s tb = Some Y ->
  exists c σ',
    binary (Unsafe.algebra f) a (ISafe b) σ = Ok (ISafe c) σ' /\
    contents σ' c (f X Y).
Proof.
  intros Ha Hb Hwa Hwb HX HY.
  eexists _, _. split; [by eapply binary_run|].
  eexists. simpl. split; [apply lookup_insert_eq|]. apply lookup_insert_eq.
Qed.

(** The scenario of the specification: for A = {1, 2} and B = {2, 3}, the
    union is {1, 2, 3}, the intersection {2}, the difference {1} and the
    symmetric difference {1, 3}. *)
Example set_algebra_scenario a b ta tb σ :
  structs σ !! a = Some ta -> structs σ !! b = Some tb ->
  writer (l ta) = false -> writer (l tb) = false ->
  maps σ !! s ta = Some {[VInt 1; VInt 2]} ->
  maps σ !! s tb = Some {[VInt 2; VInt 3]} ->
  (exists c σ', Union a (ISafe b) σ = Ok (ISafe c) σ' /\
                contents σ' c {[VInt 1; VInt 2; VInt 3]}) /\
  (exists c σ', Intersect a (ISafe b) σ = Ok (ISafe c) σ' /\
                contents σ' c {[VInt 2]}) /\
  (exists c σ', Difference a (ISafe b) σ = Ok (ISafe c) σ' /\
                contents σ' c {[VInt 1]}) /\
  (exists c σ', SymmetricDifference a (ISafe b) σ = Ok (ISafe c) σ' /\
                contents σ' c {[VInt 1; VInt 3]}).
Proof.
  intros Ha Hb Hwa Hwb HX HY.
  repeat split.
  - destruct (binary_result (∪) a b ta tb _ _ σ Ha Hb Hwa Hwb HX HY)
      as (c & σ' & Hrun & Hc).
    exists c, σ'. split; [exact Hrun|]. exact Hc.
  - destruct (binary_result (∩) a b ta tb _ _ σ Ha Hb Hwa Hwb HX HY)
      as (c & σ' & Hrun & Hc).
    exists c, σ'. split; [exact Hrun|]. exact Hc.
  - destruct (binary_result (∖) a b ta tb _ _ σ Ha Hb Hwa Hwb HX HY)
      as (c & σ' & Hrun & Hc).
    exists c, σ'. split; [exact Hrun|]. exact Hc.
  - destruct (binary_result (fun X Y => (X ∖ Y) ∪ (Y ∖ X)) a b ta tb _ _ σ
                Ha Hb Hwa Hwb HX HY) as (c & σ' & Hrun & Hc).
    exists c, σ'. split; [exact Hrun|]. exact Hc.
Qed.

(** ** The power set: sublists and the engine's instances *)

Lemma length_sublists {A} (xs : list A) : length (sublists xs) = 2 ^ length xs.
Proof.
  induction xs as [|x xs IH]; simpl; [done|].
  rewrite length_app, length_fmap, IH. lia.
Qed.

Lemma sublists_subseteq (xs ys : list value) :
  ys ∈ sublists xs -> list_to_set (C := gset value) ys ⊆ list_to_set xs.
Proof.
  revert ys. induction xs as [|x xs IH]; intros ys; simpl.
  - intros ->%list_elem_of_singleton. done.
  - rewrite elem_of_app, list_elem_of_fmap.
    intros [H|(zs & -> & H)]; apply IH in H; simpl; set_solver.
Qed.

Lemma sublists_complete (xs : list value) (Y : gset value) :
  Y ⊆ list_to_set xs -> exists ys, ys ∈ sublists xs /\ list_to_set ys = Y.
Proof.
  revert Y. induction xs as [|x xs IH]; intros Y HY; simpl in *.
  - exists []. split; [apply list_elem_of_singleton; done|]. set_solver.
  - destruct (decide (x ∈ Y)) as [Hx|Hx].
    + destruct (IH (Y ∖ {[x]})) as (ys & Hys & E); [set_solver|].
      exists (x :: ys). split.
      * apply elem_of_app. right. apply list_elem_of_fmap. eauto.
      * simpl. rewrite E. apply set_eq. intros z.
        rewrite elem_of_union, elem_of_singleton, elem_of_difference, elem_of_singleton.
        destruct (decide (z = x)); naive_solver.
    + destruct (IH Y) as (ys & Hys & E); [set_solver|].
      exists ys. split; [|done]. apply elem_of_app. by left.
Qed.

Lemma new_instances_run subs : forall σ,
  exists ptrs σ',
    Unsafe.new_instances subs σ = Ok ptrs σ' /\
    structs σ' = structs σ /\ tick σ' = tick σ /\ trace σ' = trace σ /\
    maps σ ⊆ maps σ' /\ cells σ ⊆ cells σ' /\
    NoDup ptrs /\
    Forall2 (fun ys v => exists c m,
               v = VUnsafe (PCell c) /\ cells σ !! c = None /\
               cells σ' !! c = Some m /\ maps σ' !! m = Some (list_to_set ys))
            subs ptrs.
Proof.
  induction subs as [|ys rest IH]; intros σ.
  - exists [], σ. repeat split; try done. constructor. 
  - simpl.
    set (m := fresh (dom (maps σ))). set (c := fresh (dom (cells σ))).
    set (σ1 := {| maps := <[m := list_to_set ys]> (maps σ); structs := structs σ;
                  cells := <[c := m]> (cells σ); tick := tick σ; trace := trace σ |}).
    destruct (IH σ1) as (ptrs & σ' & Hrun & Hs & Hk & Htr & Hm & Hc & Hnd & Hall).
    exists (VUnsafe (PCell c) :: ptrs), σ'.
    assert (Hm0 : maps σ !! m = None) by apply fresh_dom_None.
    assert (Hc0 : cells σ !! c = None) by apply fresh_dom_None.
    split.
    { unfold Unsafe.new_instance, make_map, new_cell. unfold mbind, M_bind, mret, M_ret.
      simpl. fold m c σ1. rewrite Hrun. done. }
    repeat split; try done.
    + etrans; [|exact Hm]. by apply insert_subseteq.
    + etrans; [|exact Hc]. by apply insert_subseteq.
    + constructor; [|done]. intros Hin.
      apply list_elem_of_lookup in Hin as [i Hi].
      destruct (Forall2_lookup_r _ _ _ _ _ Hall Hi)
        as (ys' & _ & c' & m' & E & Hnone & _).
      simplify_eq. simpl in Hnone. by rewrite lookup_insert_eq in Hnone.
    + constructor.
      * exists c, m. repeat split; try done.
        -- eapply lookup_weaken; [|exact Hc]. simpl. apply lookup_insert_eq.
        -- eapply lookup_weaken; [|exact Hm]. simpl. apply lookup_insert_eq.
      * eapply Forall2_impl; [exact Hall|].
        intros zs v (c' & m' & -> & Hnone & Hc' & Hm').
        exists c', m'. repeat split; try done.
        simpl in Hnone. by apply lookup_insert_None in Hnone as [? _].
Qed.

(** The loop of [PowerSet]: one new struct for each instance the engine
    made, each added to the result set at [r], whose map is [m0]. *)
Lemma PowerSet_loop r m0 items : forall σ acc,
  structs σ !! r = Some {| s := m0; l := unlocked |} ->
  maps σ !! m0 = Some acc ->
  (forall v, v ∈ acc -> exists x, v = VSafe x /\ is_Some (structs σ !! x)) ->
  Forall (fun v => exists c m, v = VUnsafe (PCell c) /\ cells σ !! c = Some m) items ->
  exists xs σ',
    for_each items (fun subset =>
      unsafeSubset ← value_as_unsafe subset;
      m ← deref unsafeSubset;
      x ← new_struct m;
      _ ← Add r (VSafe x);
      mret tt) σ = Ok tt σ' /\
    maps σ' = <[m0 := list_to_set (VSafe <$> xs) ∪ acc]> (maps σ) /\
    cells σ' = cells σ /\ tick σ' = tick σ /\
    structs σ ⊆ structs σ' /\
    NoDup xs /\ Forall (fun x => structs σ !! x = None) xs /\
    Forall2 (fun v x => exists c m,
               v = VUnsafe (PCell c) /\ cells σ !! c = Some m /\
               structs σ' !! x = Some {| s := m; l := unlocked |})
            items xs.
Proof.
  induction items as [|v rest IH]; intros σ acc Hr Hm0 Hacc Hitems.
  - exists [], σ. simpl. repeat split; try done; try constructor.
    rewrite insert_id; [done|]. rewrite Hm0. f_equal. set_solver.
  - apply Forall_cons in Hitems as [(c & m & -> & Hc) Hrest].
    set (x := fresh (dom (structs σ))).
    assert (Hx : structs σ !! x = None) by apply fresh_dom_None.
    assert (Hxr : x ≠ r) by (intros ->; congruence).
    set (σ1 := {| maps := maps σ;
                  structs := <[x := {| s := m; l := unlocked |}]> (structs σ);
                  cells := cells σ; tick := tick σ; trace := trace σ |}).
    assert (Hnew : VSafe x ∉ acc).
    { intros Hin. destruct (Hacc _ Hin) as (x' & E & [t Ht]). simplify_eq. }
    assert (HAdd := Add_run_new r m0 acc (VSafe x) σ1).
    simpl in HAdd. rewrite lookup_insert_ne in HAdd by done.
    specialize (HAdd Hr Hm0 Hnew).
    set (σ2 := {| maps := <[m0 := {[VSafe x]} ∪ acc]> (maps σ);
                  structs := <[x := {| s := m; l := unlocked |}]> (structs σ);
                  cells := cells σ; tick := tick σ;
                  trace := trace σ ++ [EvLock r; EvWrite m0; EvUnlock r] |}) in *.
    destruct (IH σ2 ({[VSafe x]} ∪ acc)) as (xs & σ' & Hrun & Hmaps & Hcells & Htick & Hsub & Hnd & Hfresh & Hall).
    { simpl. by rewrite lookup_insert_ne. }
    { simpl. apply lookup_insert_eq. }
    { intros v. rewrite elem_of_union, elem_of_singleton. intros [->|Hv].
      - exists x. split; [done|]. simpl. rewrite lookup_insert_eq. eauto.
      - destruct (Hacc _ Hv) as (x' & -> & [t Ht]). exists x'. split; [done|].
        simpl. rewrite lookup_insert_ne by congruence. eauto. }
    { exact Hrest. }
    exists (x :: xs), σ'. split.
    { simpl. unfold value_as_unsafe, deref, new_struct.
      unfold mbind, M_bind, mret, M_ret. simpl. rewrite Hc. fold x σ1.
      rewrite HAdd. exact Hrun. }
    simpl in Hmaps, Hcells, Htick, Hsub, Hfresh.
    repeat split; try done.
    + rewrite Hmaps, insert_insert_eq. f_equal. rewrite fmap_cons. simpl.
      set_solver.
    + etrans; [|exact Hsub]. by apply insert_subseteq.
    + constructor; [|done]. intros Hin.
      eapply Forall_forall in Hfresh; [|exact Hin].
      by rewrite lookup_insert_eq in Hfresh.
    + constructor; [done|].
      eapply Forall_impl; [exact Hfresh|]. simpl.
      intros y Hy. by apply lookup_insert_None in Hy as [? _].
    + constructor; [|exact Hall].
      exists c, m. repeat split; try done.
      eapply lookup_weaken; [|exact Hsub]. apply lookup_insert_eq.
Qed.

Lemma Unsafe_PowerSet_run p m X σ :
  deref p σ = Ok m σ -> maps σ !! m = Some X ->
  exists ptrs pc pm σ',
    Unsafe.PowerSet p σ = Ok (IUnsafe (PCell pc)) σ' /\
    structs σ' = structs σ /\ tick σ' = tick σ /\ trace σ' = trace σ /\
    maps σ ⊆ maps σ' /\ cells σ ⊆ cells σ' /\
    cells σ' !! pc = Some pm /\ maps σ' !! pm = Some (list_to_set ptrs) /\
    NoDup ptrs /\
    Forall2 (fun ys v => exists c n,
               v = VUnsafe (PCell c) /\ cells σ' !! c = Some n /\
               maps σ' !! n = Some (list_to_set ys))
            (sublists (elements X)) ptrs.
Proof.
  intros Hp HX.
  destruct (new_instances_run (sublists (elements X)) σ)
    as (ptrs & σ2 & Hrun & Hs & Hk & Htr & Hm & Hc & Hnd & Hall).
  set (pm := fresh (dom (maps σ2))). set (pc := fresh (dom (cells σ2))).
  assert (Hpm : maps σ2 !! pm = None) by apply fresh_dom_None.
  assert (Hpc : cells σ2 !! pc = None) by apply fresh_dom_None.
  exists ptrs, pc, pm,
    {| maps := <[pm := list_to_set ptrs]> (maps σ2); structs := structs σ2;
       cells := <[pc := pm]> (cells σ2); tick := tick σ2; trace := trace σ2 |}.
  split.
  { unfold Unsafe.PowerSet. rewrite (run_bind _ _ _ _ _ Hp).
    unfold map_keys at 1. unfold mbind at 1, M_bind. rewrite HX.
    rewrite (run_bind _ _ _ _ _ Hrun). done. }
  simpl. repeat split; try done.
  - etrans; [exact Hm|]. by apply insert_subseteq.
  - etrans; [exact Hc|]. by apply insert_subseteq.
  - apply lookup_insert_eq.
  - apply lookup_insert_eq.
  - eapply Forall2_impl; [exact Hall|].
    intros ys v (c & n & -> & _ & Hc' & Hn).
    exists c, n. repeat split; try done.
    + rewrite lookup_insert_ne; [done|]. intros <-. congruence.
    + rewrite lookup_insert_ne; [done|]. intros <-. congruence.
Qed.

Section PowerSetRun.

Variable order : nat -> list value -> list value.
Hypothesis order_perm : forall k ks, order k ks ≡ₚ ks.

Lemma PowerSet_run a ta X σ :
  structs σ !! a = Some ta -> writer (l ta) = false ->
  maps σ !! s ta = Some X ->
  exists c m0 P σ',
    PowerSet order a σ = Ok (ISafe c) σ' /\
    structs σ !! c = None /\
    structs σ' !! c = Some {| s := m0; l := unlocked |} /\
    maps σ !! m0 = None /\ maps σ' !! m0 = Some P /\
    size P = 2 ^ size X /\
    structs σ ⊆ structs σ' /\ maps σ ⊆ maps σ' /\
    (forall v, v ∈ P -> exists x mx Y,
        v = VSafe x /\ structs σ !! x = None /\
        structs σ' !! x = Some {| s := mx; l := unlocked |} /\
        maps σ' !! mx = Some Y /\ Y ⊆ X) /\
    (forall Y, Y ⊆ X -> exists x mx,
        VSafe x ∈ P /\
        structs σ' !! x = Some {| s := mx; l := unlocked |} /\
        maps σ' !! mx = Some Y).
Proof.
  intros Ha Hwa HX.
  destruct ta as [ma [wa ra]]; simpl in *; subst.
  set (σ1 := {| maps := maps σ;
                structs := <[a := {| s := ma; l := {| writer := false; readers := S ra |} |}]> (structs σ);
                cells := cells σ; tick := tick σ; trace := trace σ ++ [EvRLock a] |}).
  assert (HRL : RLock a σ = Ok tt σ1).
  { unfold_steps. rewrite Ha. simpl. done. }
  assert (Hd : deref (PField a) σ1 = Ok ma σ1).
  { unfold_steps. rewrite lookup_insert_eq. done. }
  destruct (Unsafe_PowerSet_run (PField a) ma X σ1 Hd HX)
    as (ptrs & pc & pm & σ2 & Hrun & Hs & Hk & Htr & Hm & Hc & Hpc & Hpm & Hnd & Hall).
  simpl in Hs, Hk, Htr, Hm, Hc.
  set (σ3 := {| maps := maps σ2; structs := structs σ; cells := cells σ2;
                tick := tick σ; trace := trace σ ++ [EvRLock a; EvRUnlock a] |}).
  assert (HRU : RUnlock a σ2 = Ok tt σ3).
  { unfold_steps. rewrite Hs, lookup_insert_eq. simpl.
    rewrite Hs, Htr, Hk. apply Ok_eq; try done.
    - rewrite insert_insert_eq. by apply insert_id.
    - by rewrite <- app_assoc. }
  set (m0 := fresh (dom (maps σ2))). set (c := fresh (dom (structs σ))).
  assert (Hm0 : maps σ2 !! m0 = None) by apply fresh_dom_None.
  assert (Hc0 : structs σ !! c = None) by apply fresh_dom_None.
  set (items := order (tick σ) (elements (list_to_set (C := gset value) ptrs))).
  set (σ5 := {| maps := <[m0 := ∅]> (maps σ2);
                structs := <[c := {| s := m0; l := unlocked |}]> (structs σ);
                cells := cells σ2; tick := S (tick σ);
                trace := trace σ ++ [EvRLock a; EvRUnlock a] |}).
  assert (Hitems : items ≡ₚ ptrs).
  { unfold items. rewrite order_perm. by apply elements_list_to_set. }
  destruct (PowerSet_loop c m0 items σ5 ∅)
    as (xs & σ' & Hloop & Hmaps & Hcells & Htick & Hsub & Hndx & Hfresh & Hall').
  { simpl. apply lookup_insert_eq. }
  { simpl. apply lookup_insert_eq. }
  { set_solver. }
  { simpl. rewrite Hitems. eapply Forall2_Forall_r; [exact Hall|].
    apply Forall_forall. intros v _ ys (c' & n & -> & Hc' & _). eauto. }
  simpl in Hmaps, Hcells, Htick, Hsub, Hfresh.
  assert (Hne : m0 ≠ pm) by (intros E; rewrite E in Hm0; congruence).
  exists c, m0, (list_to_set (VSafe <$> xs)), σ'.
  split.
  { unfold PowerSet. rewrite (run_bind _ _ _ _ _ HRL).
    rewrite (run_bind _ _ _ _ _ Hrun). simpl.
    unfold as_unsafe. unfold mbind at 1, M_bind at 1, mret at 1, M_ret at 1.
    rewrite (run_bind _ _ _ _ _ HRU).
    erewrite run_bind; [|reflexivity].
    erewrite run_bind; [|reflexivity].
    erewrite (run_bind (Unsafe.Iter _ _) _ _ items σ5).
    - rewrite (run_bind _ _ _ _ _ Hloop). done.
    - unfold_steps. fold m0 c. rewrite Hpc. simpl.
      rewrite lookup_insert_ne by done. rewrite Hpm. done. }
  assert (Hmaps' : maps σ' = <[m0 := list_to_set (VSafe <$> xs)]> (maps σ2)).
  { rewrite Hmaps, insert_insert_eq. f_equal. set_solver. }
  assert (HX' : list_to_set (elements X) = X) by apply list_to_set_elements_L.
  assert (Hold : forall n Z, n ≠ m0 -> maps σ2 !! n = Some Z -> maps σ' !! n = Some Z).
  { intros n Z Hn HZ. rewrite Hmaps', lookup_insert_ne; done. }
  assert (Hmember : forall x v, v ∈ items ->
            (exists c' m', v = VUnsafe (PCell c') /\ cells σ2 !! c' = Some m' /\
                           structs σ' !! x = Some {| s := m'; l := unlocked |}) ->
            exists mx ys, structs σ' !! x = Some {| s := mx; l := unlocked |} /\
                          maps σ' !! mx = Some (list_to_set ys) /\
                          ys ∈ sublists (elements X) /\ v ∈ ptrs).
  { intros x v Hv (c' & m' & -> & Hc' & Hx).
    rewrite Hitems in Hv. apply list_elem_of_lookup in Hv as Hi. destruct Hi as [i Hi].
    destruct (Forall2_lookup_r _ _ _ _ _ Hall Hi)
      as (ys & Hys & c'' & n & E & Hc'' & Hn).
    injection E as E. subst c''. assert (n = m') as -> by congruence.
    exists m', ys. repeat split; try done.
    - apply Hold; [|done]. intros ->. congruence.
    - eapply list_elem_of_lookup_2; eauto. }
  repeat split; try done.
  - eapply lookup_weaken; [|exact Hsub]. apply lookup_insert_eq.
  - apply eq_None_not_Some. intros [Z HZ].
    eapply lookup_weaken in HZ; [|exact Hm]. congruence.
  - rewrite Hmaps'. apply lookup_insert_eq.
  - rewrite size_list_to_set by (apply NoDup_fmap; [intros ?? [=]; done|done]).
    rewrite length_fmap, <- (Forall2_length _ _ _ Hall'), Hitems.
    rewrite <- (Forall2_length _ _ _ Hall), length_sublists.
    done.
  - etrans; [|exact Hsub]. by apply insert_subseteq.
  - etrans; [exact Hm|]. rewrite Hmaps'. by apply insert_subseteq.
  - intros v Hv. apply elem_of_list_to_set, list_elem_of_fmap in Hv as (x & -> & Hx).
    apply list_elem_of_lookup in Hx as [i Hi].
    destruct (Forall2_lookup_r _ _ _ _ _ Hall' Hi) as (v & Hv & Hvx).
    destruct (Hmember x v) as (mx & ys & Hsx & Hmx & Hys & _);
      [eapply list_elem_of_lookup_2; eauto | exact Hvx |].
    exists x, mx, (list_to_set ys). repeat split; try done.
    + eapply Forall_forall in Hfresh; [|eapply list_elem_of_lookup_2; eauto].
      by apply lookup_insert_None in Hfresh as [? _].
    + etrans; [by apply sublists_subseteq|]. by rewrite HX'.
  - intros Y HY. rewrite <- HX' in HY.
    destruct (sublists_complete _ _ HY) as (ys & Hys & <-).
    apply list_elem_of_lookup in Hys as [i Hi].
    destruct (Forall2_lookup_l _ _ _ _ _ Hall Hi)
      as (v & Hv & c' & n & -> & Hc' & Hn).
    assert (Hin : VUnsafe (PCell c') ∈ items).
    { rewrite Hitems. eapply list_elem_of_lookup_2; eauto. }
    apply list_elem_of_lookup in Hin as [j Hj].
    destruct (Forall2_lookup_l _ _ _ _ _ Hall' Hj)
      as (x & Hx & c'' & m' & E & Hc'' & Hsx).
    simpl in Hc''. injection E as E. subst c''.
    assert (n = m') as -> by congruence.
    exists x, m'. repeat split; try done.
    + apply elem_of_list_to_set, list_elem_of_fmap. exists x. split; [done|].
      eapply list_elem_of_lookup_2; eauto.
    + apply Hold; [|done]. intros ->. congruence.
Qed.
End PowerSetRun.

(** ** The properties of the specification *)


(** C2: each of the eight operations on two sets (IsSubset, IsProperSubset,
    Union, Intersect, Difference, SymmetricDifference, Equal,
    CartesianProduct) called on a thread-safe set with an operand that is not
    a thread-safe set ends in the type-assertion panic, whatever the heap,
    and returns no result. *)
Theorem operand_of_other_variant_panics (set : loc) (other : SetI) (σ : state) :
  (forall a, other ≠ ISafe a) ->
  IsSubset set other σ = Panics TypeAssertion /\
  IsProperSubset set other σ = Panics TypeAssertion /\
  Union set other σ = Panics TypeAssertion /\
  Intersect set other σ = Panics TypeAssertion /\
  Difference set other σ = Panics TypeAssertion /\
  SymmetricDifference set other σ = Panics TypeAssertion /\
  Equal set other σ = Panics TypeAssertion /\
  CartesianProduct set other σ = Panics TypeAssertion.
Proof.
  intros Hother. destruct other as [a| |]; [by destruct (Hother a)|..];
    repeat split; reflexivity.
Qed.

(** C5: for thread-safe sets A and B, in every heap, A.IsSuperset(B) is the
    very computation B.IsSubset(A), and A.IsProperSuperset(B) is
    B.IsProperSubset(A): same result, same final heap, same panic or wait. *)
Theorem superset_is_subset_reversed (a b : loc) (σ : state) :
  IsSuperset a (ISafe b) σ = IsSubset b (ISafe a) σ /\
  IsProperSuperset a (ISafe b) σ = IsProperSubset b (ISafe a) σ.
Proof. split; reflexivity. Qed.

(** C4: on a set with elements [X] whose lock is free, [Add e] returns true
    exactly when [e] was not in [X]; afterwards the set holds [e] and the
    rest of [X], and [Contains e] is true. Starting from {1, 2, 3}, [Add 4]
    returns true and the cardinality is 4; a second [Add 4] returns false
    and the cardinality is still 4. *)
Theorem Add_reports_new_element (a m : loc) (X : gset value) (e : value) (σ : state) :
  structs σ !! a = Some {| s := m; l := unlocked |} ->
  maps σ !! m = Some X ->
  (exists r σ',
      Add a e σ = Ok r σ' /\
      (r = true <-> e ∉ X) /\
      structs σ' !! a = Some {| s := m; l := unlocked |} /\
      maps σ' !! m = Some ({[e]} ∪ X) /\
      exists σ'', Contains a [e] σ' = Ok true σ'') /\
  (X = {[VInt 1; VInt 2; VInt 3]} -> e = VInt 4 ->
   exists σ1 σ2 σ3 σ4,
      Add a e σ = Ok true σ1 /\ Cardinality a σ1 = Ok 4 σ2 /\
      Add a e σ2 = Ok false σ3 /\ Cardinality a σ3 = Ok 4 σ4).
Proof.
  intros Ha HX. split.
  - destruct (decide (e ∈ X)) as [Hin|Hin].
    + eexists false, _. split; [by apply (Add_run_old a m X)|].
      split; [split; [done|tauto]|]. simpl.
      split; [done|]. split; [rewrite HX; f_equal; set_solver|].
      eexists. erewrite (Contains_run a _ X); [|done..]. simpl.
      by rewrite bool_decide_true.
    + eexists true, _. split; [by apply (Add_run_new a m X)|].
      split; [done|]. simpl. split; [done|].
      split; [apply lookup_insert_eq|].
      eexists. erewrite (Contains_run a _ ({[e]} ∪ X)); simpl; [|done..|apply lookup_insert_eq].
      rewrite bool_decide_true by set_solver. done.
  - intros -> ->.
    do 4 eexists. split; [apply (Add_run_new a m _ _ σ Ha HX); set_solver|].
    split.
    { erewrite Cardinality_run; simpl; [|done..|apply lookup_insert_eq].
      f_equal. }
    split.
    { eapply (Add_run_old a m); simpl; [done|apply lookup_insert_eq|set_solver]. }
    erewrite Cardinality_run; simpl; [|done..|apply lookup_insert_eq].
    f_equal.
Qed.

Lemma binary_operations_shape (op : loc -> SetI -> M SetI) :
  op ∈ binary_operations -> exists f, op = binary (Unsafe.algebra f).
Proof.
  unfold binary_operations. rewrite !elem_of_cons, elem_of_nil.
  intros [->|[->|[->|[->|[->|[]]]]]]; eexists; reflexivity.
Qed.

(** C3: for thread-safe sets at [a] and [b] that can be read, each of Union,
    Intersect, Difference, SymmetricDifference and CartesianProduct returns
    a thread-safe set and leaves both operands as they were (same struct,
    same lock state, same map object with the same elements), as well as
    every other struct and map object; the struct returned and its map
    object are at addresses that were not in use, so they are neither
    operand's. *)
Theorem binary_operations_allocate_and_preserve
    (op : loc -> SetI -> M SetI) (a b : loc) (ta tb : threadSafeSet)
    (X Y : gset value) (σ : state) :
  op ∈ binary_operations ->
  structs σ !! a = Some ta -> structs σ !! b = Some tb ->
  writer (l ta) = false -> writer (l tb) = false ->
  maps σ !! s ta = Some X -> maps σ !! s tb = Some Y ->
  exists c m Z σ',
    op a (ISafe b) σ = Ok (ISafe c) σ' /\
    structs σ' !! a = Some ta /\ structs σ' !! b = Some tb /\
    maps σ' !! s ta = Some X /\ maps σ' !! s tb = Some Y /\
    structs σ ⊆ structs σ' /\ maps σ ⊆ maps σ' /\
    structs σ !! c = None /\ maps σ !! m = None /\
    structs σ' !! c = Some {| s := m; l := unlocked |} /\
    maps σ' !! m = Some Z /\
    c ≠ a /\ c ≠ b /\ m ≠ s ta /\ m ≠ s tb.
Proof.
  intros Hop Ha Hb Hwa Hwb HX HY.
  destruct (binary_operations_shape op Hop) as [f ->].
  pose proof (fresh_dom_None (structs σ)) as Hc.
  pose proof (fresh_dom_None (maps σ)) as Hm.
  eexists _, _, _, _. split; [by eapply binary_run|]. simpl.
  assert (Hs : structs σ ⊆ <[fresh (dom (structs σ)) :=
             {| s := fresh (dom (maps σ)); l := unlocked |}]> (structs σ))
    by (by apply insert_subseteq).
  assert (Hmm : maps σ ⊆ <[fresh (dom (maps σ)) := f X Y]> (maps σ))
    by (by apply insert_subseteq).
  repeat split; try done; try (by eapply lookup_weaken);
    try apply lookup_insert_eq; intros E; congruence.
Qed.

Lemma operand_accepted σ d c td tc D Z :
  structs σ !! d = Some td -> writer (l td) = false -> maps σ !! s td = Some D ->
  structs σ !! c = Some tc -> writer (l tc) = false -> maps σ !! s tc = Some Z ->
  accepted_as_operand σ d (ISafe c).
Proof.
  intros Hd Hwd HD Hc Hwc HZ. unfold accepted_as_operand, succeeds.
  repeat split; eexists _, _.
  - by eapply IsSubset_run.
  - by eapply IsProperSubset_run.
  - by eapply (binary_run (∪)).
  - by eapply (binary_run (∩)).
  - by eapply (binary_run (∖)).
  - by eapply (binary_run (fun X Y => (X ∖ Y) ∪ (Y ∖ X))).
  - by eapply Equal_run.
  - by eapply (binary_run Unsafe.pairs).
Qed.

(** [Add], [Remove], [Clear] and [Pop] on a set whose lock is free finish,
    and the events of each keep every update of the set under its write
    lock. *)
Lemma mutators_hold_the_write_lock (order : nat -> list value -> list value)
    (a m : loc) (X : gset value) (i : value) (σ : state) :
  structs σ !! a = Some {| s := m; l := unlocked |} ->
  maps σ !! m = Some X ->
  (exists r σ' es, Add a i σ = Ok r σ' /\ trace σ' = trace σ ++ es /\
                   guarded a m false es = true) /\
  (exists σ' es, Remove a i σ = Ok tt σ' /\ trace σ' = trace σ ++ es /\
                 guarded a m false es = true) /\
  (exists σ' es, Clear a σ = Ok tt σ' /\ trace σ' = trace σ ++ es /\
                 guarded a m false es = true) /\
  (exists v σ' es, Pop order a σ = Ok v σ' /\ trace σ' = trace σ ++ es /\
                   guarded a m false es = true).
Proof.
  intros Ha HX. repeat split.
  - destruct (decide (i ∈ X)).
    + eexists _, _, _. split; [by eapply Add_run_old|]. split; [done|].
      simpl. rewrite ?decide_True by done. done.
    + eexists _, _, _. split; [by eapply Add_run_new|]. split; [done|].
      simpl. rewrite ?decide_True by done. done.
  - eexists _, _. split; [by eapply Remove_run|]. split; [done|].
    simpl. rewrite ?decide_True by done. done.
  - eexists _, _. split; [by eapply Clear_run|]. split; [done|].
    simpl. rewrite ?decide_True by done. done.
  - rewrite (Pop_run order a m X σ Ha HX).
    destruct (order (tick σ) (elements X)); eexists _, _, _;
      (split; [done|]); (split; [done|]); simpl; rewrite ?decide_True by done; done.
Qed.

Section Decoding.

Variable json_decode : list Byte.byte -> option (list value).

(** C1, as the code has it: [UnmarshalJSON] takes the read lock, not the
    write lock. On a set that readers may be reading (no writer, any number
    of readers), with an input that decodes to an array, it finishes and
    replaces the elements; its events are RLock, the update of the map,
    RUnlock, so the update is not under the write lock, while [Add] in a
    state with a reader waits. *)
Theorem UnmarshalJSON_writes_under_read_lock (a : loc) (t : threadSafeSet)
    (X : gset value) (p : list Byte.byte) (elems : list value) (σ : state) :
  structs σ !! a = Some t -> writer (l t) = false ->
  maps σ !! s t = Some X ->
  json_decode p = Some elems ->
  exists σ',
    UnmarshalJSON json_decode a p σ = Ok false σ' /\
    maps σ' !! s t = Some (list_to_set elems) /\
    structs σ' !! a = Some t /\
    trace σ' = trace σ ++ [EvRLock a; EvWrite (s t); EvRUnlock a] /\
    guarded a (s t) false [EvRLock a; EvWrite (s t); EvRUnlock a] = false /\
    (0 < readers (l t) -> forall e, Add a e σ = Blocks).
Proof.
  intros Ha Hw HX Hp.
  eexists. split; [by eapply UnmarshalJSON_run|]. simpl.
  split; [apply lookup_insert_eq|]. split; [done|]. split; [done|].
  split; [by rewrite decide_True|].
  intros Hr e. unfold Add. unfold_steps. rewrite Ha. simpl.
  rewrite Hw. simpl. destruct (readers (l t)); [lia|done].
Qed.

End Decoding.

Section Iteration.

Variable order : nat -> list value -> list value.
Hypothesis order_perm : forall k ks, order k ks ≡ₚ ks.

(** C6: on a set with elements [X] whose lock is free, [Pop] on the empty set
    returns the nil value and leaves the set empty; on a set that is not
    empty it returns an element of [X], the set then holds the other
    elements, its cardinality is one less, and [Contains] of the popped
    element is false. *)
Theorem Pop_removes_one_element (a m : loc) (X : gset value) (σ : state) :
  structs σ !! a = Some {| s := m; l := unlocked |} ->
  maps σ !! m = Some X ->
  exists v σ',
    Pop order a σ = Ok v σ' /\
    structs σ' !! a = Some {| s := m; l := unlocked |} /\
    (X = ∅ -> v = VNil /\ maps σ' !! m = Some ∅ /\
              exists σ'', Cardinality a σ' = Ok 0 σ'') /\
    (X ≠ ∅ -> v ∈ X /\ maps σ' !! m = Some (X ∖ {[v]}) /\
              S (size (X ∖ {[v]})) = size X /\
              (exists σ'', Cardinality a σ' = Ok (size X - 1) σ'') /\
              exists σ'', Contains a [v] σ' = Ok false σ'').
Proof.
  intros Ha HX. rewrite (Pop_run order a m X σ Ha HX).
  pose proof (order_perm (tick σ) (elements X)) as Hperm.
  destruct (order (tick σ) (elements X)) as [|item ks] eqn:E.
  - apply Permutation_nil in Hperm.
    apply elements_empty_inv in Hperm. apply leibniz_equiv in Hperm. subst X.
    eexists _, _. split; [done|]. simpl. split; [done|]. split; [|done].
    intros _. split; [done|]. split; [done|].
    eexists. erewrite Cardinality_run; simpl; [|done..]. done.
  - assert (Hin : item ∈ X).
    { apply elem_of_elements. rewrite <- Hperm. left. }
    assert (Hsz : S (size (X ∖ {[item]})) = size X).
    { pose proof (size_union {[item]} (X ∖ {[item]})) as Hu.
      rewrite size_singleton, <- union_difference_L in Hu by set_solver.
      rewrite Hu by set_solver. done. }
    eexists _, _. split; [done|]. simpl. split; [done|].
    split; [intros ->; set_solver|]. intros _.
    split; [done|]. split; [apply lookup_insert_eq|]. split; [done|].
    split.
    + eexists. erewrite Cardinality_run; simpl; [|done..|apply lookup_insert_eq].
      f_equal. lia.
    + eexists. erewrite Contains_run; simpl; [|done..|apply lookup_insert_eq].
      rewrite bool_decide_false by set_solver. done.
Qed.

(** C10: on a readable set with elements [X], [ToSlice] returns a slice whose
    length is the cardinality of the set, without duplicates, and whose
    members are exactly the elements of [X]. *)
Theorem ToSlice_lists_each_element_once (a : loc) (t : threadSafeSet)
    (X : gset value) (σ : state) :
  structs σ !! a = Some t -> writer (l t) = false ->
  maps σ !! s t = Some X ->
  exists keys σ',
    ToSlice order a σ = Ok keys σ' /\
    (exists σ'', Cardinality a σ = Ok (length keys) σ'') /\
    (exists σ'', Cardinality a σ' = Ok (length keys) σ'') /\
    NoDup keys /\
    (forall v, v ∈ keys <-> v ∈ X).
Proof.
  intros Ha Hw HX.
  pose proof (order_perm (tick σ) (elements X)) as Hperm.
  eexists _, _. split; [by apply (ToSlice_run order a t X)|].
  assert (Hlen : length (order (tick σ) (elements X)) = size X).
  { by rewrite Hperm. }
  split; [|split; [|split]].
  - eexists. erewrite Cardinality_run; [|done..]. by rewrite Hlen.
  - eexists. erewrite Cardinality_run; simpl; [|done..]. by rewrite Hlen.
  - rewrite Hperm. apply NoDup_elements.
  - intros v. rewrite Hperm. apply elem_of_elements.
Qed.

(** C7: on a readable set with elements [X], [PowerSet] returns a new
    thread-safe set of cardinality 2 ^ |X|; each member is a pointer to a
    thread-safe set of its own, made by this call, with a free lock and
    elements among those of [X]; and every subset of [X] is the content of a
    member, the empty set and [X] itself among them. *)
Theorem PowerSet_holds_every_subset (a : loc) (t : threadSafeSet)
    (X : gset value) (σ : state) :
  structs σ !! a = Some t -> writer (l t) = false ->
  maps σ !! s t = Some X ->
  exists c m0 P σ',
    PowerSet order a σ = Ok (ISafe c) σ' /\
    structs σ !! c = None /\
    structs σ' !! c = Some {| s := m0; l := unlocked |} /\
    maps σ' !! m0 = Some P /\
    size P = 2 ^ size X /\
    (exists σ'', Cardinality c σ' = Ok (2 ^ size X) σ'') /\
    (forall v, v ∈ P -> exists x mx Y,
        v = VSafe x /\ structs σ !! x = None /\
        structs σ' !! x = Some {| s := mx; l := unlocked |} /\
        maps σ' !! mx = Some Y /\ Y ⊆ X) /\
    (forall Y, Y ⊆ X -> exists x mx,
        VSafe x ∈ P /\
        structs σ' !! x = Some {| s := mx; l := unlocked |} /\
        maps σ' !! mx = Some Y) /\
    (exists x, VSafe x ∈ P /\ contents σ' x ∅) /\
    (exists x, VSafe x ∈ P /\ contents σ' x X).
Proof.
  intros Ha Hw HX.
  destruct (PowerSet_run order order_perm a t X σ Ha Hw HX)
    as (c & m0 & P & σ' & Hrun & Hc & Hc' & Hm0 & HP & Hsz & Hs & Hm & Hmem & Hall).
  exists c, m0, P, σ'. repeat split; try done.
  - eexists. erewrite Cardinality_run; [|done..]. by rewrite Hsz.
  - destruct (Hall ∅) as (x & mx & Hx & Hsx & Hmx); [set_solver|].
    exists x. split; [done|]. eexists. split; [exact Hsx|done].
  - destruct (Hall X) as (x & mx & Hx & Hsx & Hmx); [done|].
    exists x. split; [done|]. eexists. split; [exact Hsx|done].
Qed.

(** C9: every set returned by Union, Intersect, Difference,
    SymmetricDifference, CartesianProduct, Clone or PowerSet on readable
    thread-safe sets is of the thread-safe variant, and each of the eight
    operations on two sets, called on any readable thread-safe set with that
    result as its operand, finishes: no type-assertion panic. *)
Theorem results_are_thread_safe_sets (produce : M SetI) (a b : loc)
    (ta tb : threadSafeSet) (X Y : gset value) (σ : state) :
  produce ∈ producers order a b ->
  structs σ !! a = Some ta -> structs σ !! b = Some tb ->
  writer (l ta) = false -> writer (l tb) = false ->
  maps σ !! s ta = Some X -> maps σ !! s tb = Some Y ->
  exists c σ',
    produce σ = Ok (ISafe c) σ' /\
    forall d td D,
      structs σ' !! d = Some td -> writer (l td) = false ->
      maps σ' !! s td = Some D ->
      accepted_as_operand σ' d (ISafe c).
Proof.
  intros Hp Ha Hb Hwa Hwb HX HY.
  assert (Hbin : forall f, exists c σ',
            binary (Unsafe.algebra f) a (ISafe b) σ = Ok (ISafe c) σ' /\
            forall d td D,
              structs σ' !! d = Some td -> writer (l td) = false ->
              maps σ' !! s td = Some D ->
              accepted_as_operand σ' d (ISafe c)).
  { intros f. eexists _, _. split; [by eapply binary_run|].
    intros d td D Hd Hwd HD.
    eapply (operand_accepted _ d _ td
              {| s := fresh (dom (maps σ)); l := unlocked |} D _ Hd Hwd HD);
      simpl; [apply lookup_insert_eq | done | apply lookup_insert_eq]. }
  unfold producers in Hp. rewrite !elem_of_cons, elem_of_nil in Hp.
  destruct Hp as [->|[->|[->|[->|[->|[->|[->|[]]]]]]]]; try apply Hbin.
  - eexists _, _. split; [by eapply Clone_run|].
    intros d td D Hd Hwd HD.
    eapply (operand_accepted _ d _ td
              {| s := fresh (dom (maps σ)); l := unlocked |} D _ Hd Hwd HD);
      simpl; [apply lookup_insert_eq | done | apply lookup_insert_eq].
  - destruct (PowerSet_run order order_perm a ta X σ Ha Hwa HX)
      as (c & m0 & P & σ' & Hrun & _ & Hc' & _ & HP & _).
    exists c, σ'. split; [done|].
    intros d td D Hd Hwd HD.
    by eapply (operand_accepted _ d _ td _ D _ Hd Hwd HD Hc').
Qed.

End Iteration.

(** ** The theorems at concrete sets *)

Lemma operand_of_other_variant_panics_witness :
  Union 1%positive (IUnsafe (PField 2%positive)) two_sets = Panics TypeAssertion /\
  Equal 1%positive INil two_sets = Panics TypeAssertion.
Proof.
  split.
  - apply (operand_of_other_variant_panics 1%positive (IUnsafe (PField 2%positive)) two_sets).
    intros a. discriminate.
  - apply (operand_of_other_variant_panics 1%positive INil two_sets).
    intros a. discriminate.
Defined.

Lemma Add_reports_new_element_witness :
  exists σ1 σ2 σ3 σ4,
    Add 1%positive (VInt 4) two_sets = Ok true σ1 /\
    Cardinality 1%positive σ1 = Ok 4 σ2 /\
    Add 1%positive (VInt 4) σ2 = Ok false σ3 /\
    Cardinality 1%positive σ3 = Ok 4 σ4.
Proof.
  apply (Add_reports_new_element 1%positive 1%positive
           {[VInt 1; VInt 2; VInt 3]} (VInt 4) two_sets); reflexivity.
Defined.

Lemma Pop_removes_one_element_witness :
  exists v σ', Pop order_listed 2%positive two_sets = Ok v σ' /\
               structs σ' !! 2%positive = Some {| s := 2%positive; l := unlocked |}.
Proof.
  destruct (Pop_removes_one_element order_listed (fun _ ks => Permutation_refl ks)
              2%positive 2%positive {[VInt 2; VInt 3]} two_sets eq_refl eq_refl)
    as (v & σ' & Hrun & Hs & _).
  exists v, σ'. split; assumption.
Defined.

Lemma ToSlice_lists_each_element_once_witness :
  exists keys σ', ToSlice order_listed 1%positive two_sets = Ok keys σ' /\
                  NoDup keys /\ (VInt 3 ∈ keys <-> VInt 3 ∈ ({[VInt 1; VInt 2; VInt 3]} : gset value)).
Proof.
  destruct (ToSlice_lists_each_element_once order_listed
              (fun _ ks => Permutation_refl ks) 1%positive
              {| s := 1%positive; l := unlocked |} {[VInt 1; VInt 2; VInt 3]}
              two_sets eq_refl eq_refl eq_refl)
    as (keys & σ' & Hrun & _ & _ & Hnd & Hmem).
  exists keys, σ'. split; [assumption|]. split; [assumption|]. apply Hmem.
Defined.

Lemma binary_operations_allocate_and_preserve_witness :
  exists c σ', Union 1%positive (ISafe 2%positive) two_sets = Ok (ISafe c) σ' /\
               structs two_sets !! c = None /\
               maps σ' !! 1%positive = Some {[VInt 1; VInt 2; VInt 3]} /\
               maps σ' !! 2%positive = Some {[VInt 2; VInt 3]}.
Proof.
  destruct (binary_operations_allocate_and_preserve Union 1%positive 2%positive
              {| s := 1%positive; l := unlocked |}
              {| s := 2%positive; l := unlocked |}
              {[VInt 1; VInt 2; VInt 3]} {[VInt 2; VInt 3]} two_sets
              (list_elem_of_here _ _) eq_refl eq_refl eq_refl eq_refl eq_refl eq_refl)
    as (c & m & Z & σ' & Hrun & _ & _ & HX & HY & _ & _ & Hc & _).
  exists c, σ'. repeat split; assumption.
Defined.

Lemma PowerSet_holds_every_subset_witness :
  exists c m0 P σ',
    PowerSet order_listed 2%positive two_sets = Ok (ISafe c) σ' /\
    structs σ' !! c = Some {| s := m0; l := unlocked |} /\
    maps σ' !! m0 = Some P /\ size P = 4.
Proof.
  destruct (PowerSet_holds_every_subset order_listed
              (fun _ ks => Permutation_refl ks) 2%positive
              {| s := 2%positive; l := unlocked |} {[VInt 2; VInt 3]}
              two_sets eq_refl eq_refl eq_refl)
    as (c & m0 & P & σ' & Hrun & _ & Hc & HP & Hsz & _).
  exists c, m0, P, σ'. repeat split; assumption.
Defined.

Lemma results_are_thread_safe_sets_witness :
  exists c σ',
    PowerSet order_listed 1%positive two_sets = Ok (ISafe c) σ' /\
    (structs σ' !! 2%positive = Some {| s := 2%positive; l := unlocked |} ->
     maps σ' !! 2%positive = Some {[VInt 2; VInt 3]} ->
     accepted_as_operand σ' 2%positive (ISafe c)).
Proof.
  destruct (results_are_thread_safe_sets order_listed
              (fun _ ks => Permutation_refl ks)
              (PowerSet order_listed 1%positive) 1%positive 2%positive
              {| s := 1%positive; l := unlocked |}
              {| s := 2%positive; l := unlocked |}
              {[VInt 1; VInt 2; VInt 3]} {[VInt 2; VInt 3]} two_sets)
    as (c & σ' & Hrun & Hacc); try reflexivity.
  { unfold producers. do 6 apply list_elem_of_further. apply list_elem_of_here. }
  exists c, σ'. split; [assumption|].
  intros Hs Hm. exact (Hacc 2%positive _ _ Hs eq_refl Hm).
Defined.

Lemma UnmarshalJSON_writes_under_read_lock_witness :
  exists σ',
    UnmarshalJSON decode_12 1%positive [] being_read = Ok false σ' /\
    maps σ' !! 1%positive = Some (list_to_set [VInt 1; VInt 2]) /\
    trace σ' = [EvRLock 1%positive; EvWrite 1%positive; EvRUnlock 1%positive] /\
    Add 1%positive (VInt 7) being_read = Blocks.
Proof.
  destruct (UnmarshalJSON_writes_under_read_lock decode_12 1%positive
              {| s := 1%positive; l := {| writer := false; readers := 1 |} |}
              {[VInt 1; VInt 2; VInt 3]} [] [VInt 1; VInt 2] being_read
              eq_refl eq_refl eq_refl eq_refl)
    as (σ' & Hrun & Hm & _ & Htr & _ & Hadd).
  exists σ'. split; [assumption|]. split; [exact Hm|].
  split; [exact Htr|]. apply Hadd. simpl. lia.
Defined.

(** ** Further properties of the wrapper *)

(** *** Remove and Clear *)

(** X1: [Remove] on a set whose lock is free deletes the element from the map of
    the set and nothing else: an absent element leaves every map as it was,
    a present one lowers the cardinality by one; the lock is free again. *)
Theorem Remove_deletes_only_the_element (a m : loc) (X : gset value)
    (i : value) (σ : state) :
  structs σ !! a = Some {| s := m; l := unlocked |} ->
  maps σ !! m = Some X ->
  exists σ',
    Remove a i σ = Ok tt σ' /\
    structs σ' = structs σ /\
    maps σ' !! m = Some (X ∖ {[i]}) /\
    (forall n, n ≠ m -> maps σ' !! n = maps σ !! n) /\
    (i ∉ X -> maps σ' = maps σ) /\
    exists σ'', Cardinality a σ' =
                  Ok (if decide (i ∈ X) then size X - 1 else size X) σ''.
Proof.
  intros Ha HX. eexists. split; [by eapply Remove_run|]. simpl.
  split; [done|]. split; [apply lookup_insert_eq|].
  split; [intros n Hn; by apply lookup_insert_ne|].
  split.
  - intros Hi. apply insert_id. rewrite HX. f_equal. set_solver.
  - eexists. erewrite Cardinality_run; simpl; [|done..|apply lookup_insert_eq].
    f_equal. case_decide as Hi.
    + pose proof (size_union {[i]} (X ∖ {[i]})) as Hu.
      rewrite size_singleton, <- union_difference_L in Hu by set_solver.
      rewrite Hu by set_solver. lia.
    + f_equal. set_solver.
Qed.

(** X2: [Clear] on a set whose lock is free gives the set a new, empty map object
    and leaves the old one, like every other map object and struct, as it
    was; the set then has cardinality 0 and its lock is free. It does not
    need the old map to exist. *)
Theorem Clear_installs_a_new_map (a m : loc) (σ : state) :
  structs σ !! a = Some {| s := m; l := unlocked |} ->
  exists m' σ',
    Clear a σ = Ok tt σ' /\
    maps σ !! m' = None /\
    structs σ' !! a = Some {| s := m'; l := unlocked |} /\
    maps σ' !! m' = Some ∅ /\
    maps σ ⊆ maps σ' /\
    (forall b, b ≠ a -> structs σ' !! b = structs σ !! b) /\
    exists σ'', Cardinality a σ' = Ok 0 σ''.
Proof.
  intros Ha. eexists _, _. split; [by eapply Clear_run|]. simpl.
  pose proof (fresh_dom_None (maps σ)) as Hm.
  split; [done|]. split; [apply lookup_insert_eq|].
  split; [apply lookup_insert_eq|].
  split; [by apply insert_subseteq|].
  split; [intros b Hb; by apply lookup_insert_ne|].
  eexists. erewrite Cardinality_run; simpl;
    [|apply lookup_insert_eq|done|apply lookup_insert_eq].
  done.
Qed.

(** [Lock] waits while a writer or a reader holds the lock, and so does
    whatever comes after it. *)
Lemma Lock_waits {A} (a : loc) (t : threadSafeSet) (k : M A) (σ : state) :
  structs σ !! a = Some t ->
  writer (l t) || negb (readers (l t) =? 0) = true ->
  (Lock a;; k) σ = Blocks.
Proof. intros Ha Hw. unfold_steps. rewrite Ha. simpl. by rewrite Hw. Qed.

(** *** Who waits for whom *)

Section Exclusion.

Variable order : nat -> list value -> list value.
Variable json_encode : list value -> option (list Byte.byte).
Variable json_decode : list Byte.byte -> option (list value).

Ltac blocked Ha Hw :=
  unfold_steps; rewrite Ha; simpl; rewrite ?Hw; simpl; done.

(** X3: While a writer holds the lock of a set, every method called on that set
    waits: the mutators, the readers, the operations on two sets whatever the
    operand, and the goroutines of [Iter] and [Iterator] at their first
    step. *)
Theorem writer_excludes_every_method (a : loc) (t : threadSafeSet) (σ : state) :
  structs σ !! a = Some t -> writer (l t) = true ->
  (forall i, Add a i σ = Blocks) /\
  (forall i, Remove a i σ = Blocks) /\
  Clear a σ = Blocks /\
  Pop order a σ = Blocks /\
  (forall i, Contains a i σ = Blocks) /\
  Cardinality a σ = Blocks /\
  ToSlice order a σ = Blocks /\
  Clone a σ = Blocks /\
  PowerSet order a σ = Blocks /\
  (forall cb, Each order a cb σ = Blocks) /\
  MarshalJSON order json_encode a σ = Blocks /\
  (forall p, UnmarshalJSON json_decode a p σ = Blocks) /\
  (forall b, IsSubset a (ISafe b) σ = Blocks /\
             IsProperSubset a (ISafe b) σ = Blocks /\
             Equal a (ISafe b) σ = Blocks /\
             Union a (ISafe b) σ = Blocks /\
             Intersect a (ISafe b) σ = Blocks /\
             Difference a (ISafe b) σ = Blocks /\
             SymmetricDifference a (ISafe b) σ = Blocks /\
             CartesianProduct a (ISafe b) σ = Blocks) /\
  Iter_step order a GoStart σ = Blocks /\
  (forall o, Iterator_step order a GoStart o σ = Blocks).
Proof.
  intros Ha Hw.
  repeat match goal with
         | |- _ /\ _ => split
         | |- forall _, _ => intros ?
         end.
  - unfold Add. blocked Ha Hw.
  - unfold Remove. blocked Ha Hw.
  - unfold Clear. blocked Ha Hw.
  - unfold Pop. blocked Ha Hw.
  - unfold Contains. blocked Ha Hw.
  - unfold Cardinality. blocked Ha Hw.
  - unfold ToSlice, Cardinality. blocked Ha Hw.
  - unfold Clone. blocked Ha Hw.
  - unfold PowerSet. blocked Ha Hw.
  - unfold Each. blocked Ha Hw.
  - unfold MarshalJSON. blocked Ha Hw.
  - unfold UnmarshalJSON. blocked Ha Hw.
  - unfold IsSubset. blocked Ha Hw.
  - unfold IsProperSubset. blocked Ha Hw.
  - unfold Equal. blocked Ha Hw.
  - unfold Union, binary. blocked Ha Hw.
  - unfold Intersect, binary. blocked Ha Hw.
  - unfold Difference, binary. blocked Ha Hw.
  - unfold SymmetricDifference, binary. blocked Ha Hw.
  - unfold CartesianProduct, binary. blocked Ha Hw.
  - unfold Iter_step, Iterator_step. blocked Ha Hw.
  - unfold Iterator_step. blocked Ha Hw.
Qed.

(** X4: While a reader holds the lock of a set, [Add], [Remove], [Clear] and
    [Pop] on it wait. *)
Theorem readers_exclude_the_mutators (a : loc) (t : threadSafeSet) (σ : state) :
  structs σ !! a = Some t -> 0 < readers (l t) ->
  (forall i, Add a i σ = Blocks) /\
  (forall i, Remove a i σ = Blocks) /\
  Clear a σ = Blocks /\
  Pop order a σ = Blocks.
Proof.
  intros Ha Hr.
  assert (Hw : writer (l t) || negb (readers (l t) =? 0) = true).
  { destruct (readers (l t)); [lia|]. by rewrite orb_true_r. }
  repeat match goal with
         | |- _ /\ _ => split
         | |- forall _, _ => intros ?
         end.
  - unfold Add. blocked Ha Hw.
  - unfold Remove. blocked Ha Hw.
  - unfold Clear. blocked Ha Hw.
  - unfold Pop. blocked Ha Hw.
Qed.

(** X5: An operation on two sets waits when a writer holds the lock of its
    operand, also when the receiver can be read; so do [IsSuperset] and
    [IsProperSuperset] called on the locked set with the other as operand. *)
Theorem writer_on_the_operand_blocks (a b : loc) (ta tb : threadSafeSet)
    (σ : state) :
  structs σ !! a = Some ta -> writer (l ta) = false ->
  structs σ !! b = Some tb -> writer (l tb) = true ->
  IsSubset a (ISafe b) σ = Blocks /\
  IsProperSubset a (ISafe b) σ = Blocks /\
  Equal a (ISafe b) σ = Blocks /\
  Union a (ISafe b) σ = Blocks /\
  Intersect a (ISafe b) σ = Blocks /\
  Difference a (ISafe b) σ = Blocks /\
  SymmetricDifference a (ISafe b) σ = Blocks /\
  CartesianProduct a (ISafe b) σ = Blocks /\
  IsSuperset b (ISafe a) σ = Blocks /\
  IsProperSuperset b (ISafe a) σ = Blocks.
Proof.
  intros Ha Hwa Hb Hwb.
  assert (Hne : a ≠ b) by (intros ->; congruence).
  assert (Hgo : forall (A : Type) (k : M A),
            (RLock a;; RLock b;; k) σ = Blocks).
  { intros A k. unfold_steps. rewrite Ha. simpl. rewrite Hwa. simpl.
    rewrite lookup_insert_ne by done. rewrite Hb. simpl. by rewrite Hwb. }
  repeat split; try apply Hgo.
Qed.

End Exclusion.

(** *** The operations that only read *)

Section Reading.

Variable order : nat -> list value -> list value.
Variable json_encode : list value -> option (list Byte.byte).

Lemma MarshalJSON_run a ta X σ :
  structs σ !! a = Some ta -> writer (l ta) = false ->
  maps σ !! s ta = Some X ->
  MarshalJSON order json_encode a σ =
    Ok (json_encode (order (tick σ) (elements X)))
       {| maps := maps σ; structs := structs σ; cells := cells σ;
          tick := S (tick σ);
          trace := trace σ ++ [EvRLock a; EvRUnlock a] |}.
Proof.
  intros Ha Hwa HX.
  destruct ta as [ma [wa ra]]; simpl in *; subst.
  unfold MarshalJSON, Unsafe.MarshalJSON. unfold_steps. rewrite Ha. simpl.
  eval_heap. same_state.
Qed.

(** X6: [Contains], [Cardinality], [ToSlice], [MarshalJSON], [IsSubset],
    [IsProperSubset], [IsSuperset], [IsProperSuperset] and [Equal] finish on
    sets without a writer, however many readers hold their locks, and leave
    every map, every struct and every lock as they found them: each read
    lock they take they give back. *)
Theorem reading_operations_change_nothing (a b : loc) (ta tb : threadSafeSet)
    (X Y : gset value) (σ : state) :
  structs σ !! a = Some ta -> structs σ !! b = Some tb ->
  writer (l ta) = false -> writer (l tb) = false ->
  maps σ !! s ta = Some X -> maps σ !! s tb = Some Y ->
  (forall i, exists r σ', Contains a i σ = Ok r σ' /\ same_heap σ σ') /\
  (exists r σ', Cardinality a σ = Ok r σ' /\ same_heap σ σ') /\
  (exists r σ', ToSlice order a σ = Ok r σ' /\ same_heap σ σ') /\
  (exists r σ', MarshalJSON order json_encode a σ = Ok r σ' /\ same_heap σ σ') /\
  (exists r σ', IsSubset a (ISafe b) σ = Ok r σ' /\ same_heap σ σ') /\
  (exists r σ', IsProperSubset a (ISafe b) σ = Ok r σ' /\ same_heap σ σ') /\
  (exists r σ', IsSuperset a (ISafe b) σ = Ok r σ' /\ same_heap σ σ') /\
  (exists r σ', IsProperSuperset a (ISafe b) σ = Ok r σ' /\ same_heap σ σ') /\
  (exists r σ', Equal a (ISafe b) σ = Ok r σ' /\ same_heap σ σ').
Proof.
  intros Ha Hb Hwa Hwb HX HY. unfold same_heap.
  repeat match goal with
         | |- _ /\ _ => split
         | |- forall _, _ => intros ?
         end; eexists _, _.
  - split; [by eapply Contains_run|]. done.
  - split; [by eapply Cardinality_run|]. done.
  - split; [by eapply ToSlice_run|]. done.
  - split; [by eapply MarshalJSON_run|]. done.
  - split; [by eapply IsSubset_run|]. done.
  - split; [by eapply IsProperSubset_run|]. done.
  - split; [by eapply (IsSubset_run b a)|]. done.
  - split; [by eapply (IsProperSubset_run b a)|]. done.
  - split; [by eapply Equal_run|]. done.
Qed.

End Reading.

(** *** A set as its own operand, and the operand of [IsSuperset] *)

(** X7: A set can be the operand of its own operations: the two read locks are
    taken one over the other and both given back. [IsSubset] and [Equal]
    answer true and [IsProperSubset] false; [Union] and [Intersect] return
    a new set with the same elements, [Difference] and [SymmetricDifference]
    a new empty set. *)
Theorem set_as_its_own_operand (a : loc) (t : threadSafeSet) (X : gset value)
    (σ : state) :
  structs σ !! a = Some t -> writer (l t) = false ->
  maps σ !! s t = Some X ->
  (exists σ', IsSubset a (ISafe a) σ = Ok true σ' /\ structs σ' = structs σ) /\
  (exists σ', IsProperSubset a (ISafe a) σ = Ok false σ' /\ structs σ' = structs σ) /\
  (exists σ', Equal a (ISafe a) σ = Ok true σ' /\ structs σ' = structs σ) /\
  (exists c σ', Union a (ISafe a) σ = Ok (ISafe c) σ' /\ contents σ' c X /\
                structs σ' !! a = Some t) /\
  (exists c σ', Intersect a (ISafe a) σ = Ok (ISafe c) σ' /\ contents σ' c X /\
                structs σ' !! a = Some t) /\
  (exists c σ', Difference a (ISafe a) σ = Ok (ISafe c) σ' /\ contents σ' c ∅ /\
                structs σ' !! a = Some t) /\
  (exists c σ', SymmetricDifference a (ISafe a) σ = Ok (ISafe c) σ' /\
                contents σ' c ∅ /\ structs σ' !! a = Some t).
Proof.
  intros Ha Hw HX.
  assert (Hbin : forall f Z, f X X = Z ->
            exists c σ', binary (Unsafe.algebra f) a (ISafe a) σ = Ok (ISafe c) σ' /\
                         contents σ' c Z /\ structs σ' !! a = Some t).
  { intros f Z <-. eexists _, _. split; [by eapply binary_run|]. split.
    - eexists. simpl. split; apply lookup_insert_eq.
    - simpl. rewrite lookup_insert_ne; [done|]. by eapply fresh_dom_ne. }
  repeat split.
  - exists (log [EvRLock a; EvRLock a; EvRUnlock a; EvRUnlock a] σ).
    split; [|done].
    erewrite IsSubset_run by done. by rewrite bool_decide_true.
  - exists (log [EvRLock a; EvRLock a; EvRUnlock a; EvRUnlock a] σ).
    split; [|done].
    erewrite IsProperSubset_run by done.
    rewrite bool_decide_true by done. by rewrite Nat.eqb_refl.
  - exists (log [EvRLock a; EvRLock a; EvRUnlock a; EvRUnlock a] σ).
    split; [|done].
    erewrite Equal_run by done.
    rewrite bool_decide_true by done. by rewrite Nat.eqb_refl.
  - apply Hbin. set_solver.
  - apply Hbin. set_solver.
  - apply Hbin. set_solver.
  - apply Hbin. set_solver.
Qed.

(** X8: [IsSuperset] and [IsProperSuperset] call the method of their operand,
    so they take the operand's read lock before the receiver's, the other
    way round from every other operation on two sets; on a nil operand they
    panic on the call itself, not on a type assertion. *)
Theorem IsSuperset_locks_the_operand_first (a b : loc) (ta tb : threadSafeSet)
    (X Y : gset value) (σ : state) :
  structs σ !! a = Some ta -> structs σ !! b = Some tb ->
  writer (l ta) = false -> writer (l tb) = false ->
  maps σ !! s ta = Some X -> maps σ !! s tb = Some Y ->
  IsSuperset a (ISafe b) σ =
    Ok (bool_decide (Y ⊆ X))
       (log [EvRLock b; EvRLock a; EvRUnlock b; EvRUnlock a] σ) /\
  IsProperSuperset a (ISafe b) σ =
    Ok (bool_decide (Y ⊆ X) && negb (size Y =? size X))
       (log [EvRLock b; EvRLock a; EvRUnlock a; EvRUnlock b] σ) /\
  IsSubset a (ISafe b) σ =
    Ok (bool_decide (X ⊆ Y))
       (log [EvRLock a; EvRLock b; EvRUnlock a; EvRUnlock b] σ) /\
  IsSuperset a INil σ = Panics NilDereference /\
  IsProperSuperset a INil σ = Panics NilDereference /\
  IsSubset a INil σ = Panics TypeAssertion.
Proof.
  intros Ha Hb Hwa Hwb HX HY.
  split; [by eapply (IsSubset_run b a)|].
  split; [by eapply (IsProperSubset_run b a)|].
  split; [by eapply IsSubset_run|].
  repeat split.
Qed.

(** *** Each *)

Lemma Add_run a m X i σ :
  structs σ !! a = Some {| s := m; l := unlocked |} ->
  maps σ !! m = Some X ->
  exists σ',
    Add a i σ = Ok (bool_decide (i ∉ X)) σ' /\
    structs σ' = structs σ /\ cells σ' = cells σ /\ tick σ' = tick σ /\
    maps σ' = <[m := {[i]} ∪ X]> (maps σ).
Proof.
  intros Ha HX. destruct (decide (i ∈ X)) as [Hi|Hi].
  - eexists. split; [erewrite Add_run_old by done; f_equal|].
    + rewrite bool_decide_false; [done|]. by intros ?.
    + simpl. repeat split; try done. symmetry. apply insert_id.
      rewrite HX. f_equal. set_solver.
  - eexists. split; [erewrite Add_run_new by done; f_equal|].
    + by rewrite bool_decide_true.
    + done.
Qed.

Lemma each_loop_copy (p : value -> bool) (a b ma mb : loc) (ta : threadSafeSet)
    (X : gset value) ks :
  forall σ Y,
    ma ≠ mb ->
    structs σ !! b = Some {| s := mb; l := unlocked |} ->
    maps σ !! ma = Some X -> maps σ !! mb = Some Y ->
    (forall k, k ∈ ks -> k ∈ X) ->
    exists σ',
      each_loop ma ks (fun v => _ ← Add b v; mret (p v)) σ = Ok tt σ' /\
      structs σ' = structs σ /\ cells σ' = cells σ /\ tick σ' = tick σ /\
      maps σ' = <[mb := list_to_set (until p ks) ∪ Y]> (maps σ).
Proof.
  induction ks as [|k rest IH]; intros σ Y Hne Hb HX HY Hks.
  - exists σ. simpl. repeat split; try done. symmetry. apply insert_id.
    rewrite HY. f_equal. set_solver.
  - destruct (Add_run b mb Y k σ Hb HY) as (σ1 & HAdd & Hs1 & Hc1 & Hk1 & Hm1).
    assert (Hin : k ∈ X) by (apply Hks; left).
    assert (Hstep : each_loop ma (k :: rest) (fun v => _ ← Add b v; mret (p v)) σ =
                    if p k then Ok tt σ1
                    else each_loop ma rest (fun v => _ ← Add b v; mret (p v)) σ1).
    { simpl. unfold map_keys at 1. unfold mbind at 1, M_bind at 1. rewrite HX.
      rewrite decide_True by done.
      unfold mbind at 1, M_bind at 1. unfold mbind at 1, M_bind at 1.
      rewrite HAdd. unfold mret, M_ret. by destruct (p k). }
    rewrite Hstep. simpl. destruct (p k) eqn:Hp.
    + exists σ1. repeat split; try done. rewrite Hm1. f_equal. set_solver.
    + destruct (IH σ1 ({[k]} ∪ Y)) as (σ' & Hrun & Hs & Hc & Hk & Hm).
      * done.
      * by rewrite Hs1.
      * rewrite Hm1. by rewrite lookup_insert_ne.
      * rewrite Hm1. apply lookup_insert_eq.
      * intros k' Hk'. apply Hks. by right.
      * exists σ'. split; [done|]. repeat split; try congruence.
        rewrite Hm, Hm1, insert_insert_eq. f_equal. set_solver.
Qed.

Lemma each_loop_reading (a : loc) (t : threadSafeSet) (X : gset value) ks :
  forall σ,
    structs σ !! a = Some t -> writer (l t) = false ->
    maps σ !! s t = Some X ->
    exists σ',
      each_loop (s t) ks (fun v => _ ← Cardinality a; mret false) σ = Ok tt σ' /\
      same_heap σ σ' /\ tick σ' = tick σ.
Proof.
  induction ks as [|k rest IH]; intros σ Ha Hw HX.
  - exists σ. by repeat split.
  - simpl. unfold map_keys at 1. unfold mbind at 1, M_bind at 1. rewrite HX.
    destruct (decide (k ∈ X)); [|by apply IH].
    unfold mbind at 1, M_bind at 1. unfold mbind at 1, M_bind at 1.
    rewrite (Cardinality_run a t X σ Ha Hw HX). simpl.
    destruct (IH (log [EvRLock a; EvRUnlock a] σ)) as (σ' & Hrun & Hsame & Hk);
      try done.
    exists σ'. split; [exact Hrun|]. split; [|exact Hk].
    destruct Hsame as (? & ? & ?). by repeat split.
Qed.

Section EachProperties.

Variable order : nat -> list value -> list value.
Hypothesis order_perm : forall k ks, order k ks ≡ₚ ks.

(** X9: [Each] with a callback that adds each key it is given to another set and
    asks to stop at the keys where [p] holds: the other set receives the
    keys of the loop up to the first one where [p] holds, and no others; the
    set iterated, its lock and all other structs end as they began. With a
    callback that never stops, the other set ends up holding the union. *)
Theorem Each_copies_until_the_callback_stops (p : value -> bool) (a b mb : loc)
    (ta : threadSafeSet) (X Y : gset value) (σ : state) :
  s ta ≠ mb ->
  structs σ !! a = Some ta -> writer (l ta) = false ->
  structs σ !! b = Some {| s := mb; l := unlocked |} ->
  maps σ !! s ta = Some X -> maps σ !! mb = Some Y ->
  exists σ',
    Each order a (fun v => _ ← Add b v; mret (p v)) σ = Ok tt σ' /\
    structs σ' = structs σ /\
    maps σ' !! s ta = Some X /\
    maps σ' !! mb =
      Some (list_to_set (until p (order (tick σ) (elements X))) ∪ Y) /\
    ((forall v, p v = false) -> maps σ' !! mb = Some (X ∪ Y)).
Proof.
  intros Hne Ha Hwa Hb HX HY.
  assert (Hab : a ≠ b).
  { intros ->. rewrite Ha in Hb. injection Hb as Hb. by destruct ta; simplify_eq/=. }
  destruct ta as [ma [wa ra]]; simpl in *; subst wa.
  set (ks := order (tick σ) (elements X)).
  set (σ1 := {| maps := maps σ;
                structs := <[a := {| s := ma; l := {| writer := false; readers := S ra |} |}]> (structs σ);
                cells := cells σ; tick := S (tick σ);
                trace := trace σ ++ [EvRLock a] |}).
  destruct (each_loop_copy p a b ma mb
              {| s := ma; l := {| writer := false; readers := S ra |} |} X ks σ1 Y)
    as (σ2 & Hrun & Hs & Hc & Hk & Hm); try done.
  { simpl. by rewrite lookup_insert_ne. }
  { intros k Hk. apply elem_of_elements. unfold ks in Hk.
    by rewrite order_perm in Hk. }
  simpl in Hs, Hm.
  eexists. split.
  { unfold Each.
    erewrite (run_bind (RLock a) _ σ tt); cycle 1.
    { unfold_steps. rewrite Ha. simpl. reflexivity. }
    erewrite run_bind; cycle 1.
    { unfold_steps. rewrite lookup_insert_eq. reflexivity. }
    erewrite (run_bind (range _ _) _ _ ks σ1); cycle 1.
    { unfold_steps. rewrite HX. reflexivity. }
    rewrite (run_bind _ _ _ _ _ Hrun).
    unfold_steps. rewrite Hs, lookup_insert_eq. simpl. reflexivity. }
  simpl. rewrite Hs, insert_insert_eq, Hm.
  split; [by apply insert_id|].
  split; [by rewrite lookup_insert_ne|].
  split; [apply lookup_insert_eq|].
  intros Hp. rewrite lookup_insert_eq. f_equal. f_equal.
  assert (Hall : until p ks = ks).
  { clear -Hp. induction ks as [|k r IH]; simpl; [done|]. by rewrite Hp, IH. }
  rewrite Hall. unfold ks. apply set_eq. intros v.
  rewrite elem_of_list_to_set, order_perm, elem_of_elements. done.
Qed.

(** X10: What a callback of [Each] may do to the set being iterated. On an empty
    set no callback is ever called. On a set that is not empty, a callback
    that calls [Add], [Remove], [Clear] or [Pop] on that same set waits for
    ever at its first call, because [Each] holds the read lock around the
    whole loop; a callback that only reads the set, here with [Cardinality],
    goes through. *)
Theorem Each_holds_the_lock_around_the_callback (a : loc) (t : threadSafeSet)
    (X : gset value) (σ : state) :
  structs σ !! a = Some t -> writer (l t) = false ->
  maps σ !! s t = Some X ->
  (X = ∅ -> forall cb, exists σ', Each order a cb σ = Ok tt σ' /\ same_heap σ σ') /\
  (X ≠ ∅ ->
     (forall e, Each order a (fun v => _ ← Add a e; mret false) σ = Blocks) /\
     (forall e, Each order a (fun v => _ ← Remove a e; mret false) σ = Blocks) /\
     Each order a (fun v => _ ← Clear a; mret false) σ = Blocks /\
     Each order a (fun v => _ ← Pop order a; mret false) σ = Blocks) /\
  (exists σ', Each order a (fun v => _ ← Cardinality a; mret false) σ = Ok tt σ' /\
              same_heap σ σ').
Proof.
  intros Ha Hw HX.
  pose proof (order_perm (tick σ) (elements X)) as Hperm.
  set (ks := order (tick σ) (elements X)) in *.
  destruct t as [ma [wa ra]]; simpl in *; subst wa.
  set (t1 := {| s := ma; l := {| writer := false; readers := S ra |} |}).
  set (σ1 := {| maps := maps σ; structs := <[a := t1]> (structs σ);
                cells := cells σ; tick := S (tick σ);
                trace := trace σ ++ [EvRLock a] |}).
  assert (Hhead : forall cb,
            Each order a cb σ = (each_loop ma ks cb;; RUnlock a) σ1).
  { intros cb. unfold Each.
    erewrite (run_bind (RLock a) _ σ tt); cycle 1.
    { unfold_steps. rewrite Ha. simpl. reflexivity. }
    erewrite run_bind; cycle 1.
    { unfold_steps. rewrite lookup_insert_eq. reflexivity. }
    erewrite (run_bind (range _ _) _ _ ks σ1); cycle 1.
    { unfold_steps. rewrite HX. reflexivity. }
    done. }
  assert (Ha1 : structs σ1 !! a = Some t1) by apply lookup_insert_eq.
  split; [|split].
  - intros -> cb. rewrite elements_empty in Hperm.
    apply Permutation_nil_r in Hperm. rewrite Hhead, Hperm.
    eexists. split.
    + unfold_steps. rewrite lookup_insert_eq. simpl. reflexivity.
    + unfold same_heap. simpl. rewrite insert_insert_eq.
      repeat split. by apply insert_id.
  - intros Hne.
    destruct ks as [|k rest] eqn:Eks.
    { apply Permutation_nil in Hperm. apply elements_empty_inv in Hperm.
      apply leibniz_equiv in Hperm. done. }
    assert (Hk : k ∈ X).
    { apply elem_of_elements. rewrite <- Hperm. left. }
    assert (Hblock : forall cb, cb k σ1 = Blocks ->
              (each_loop ma (k :: rest) cb;; RUnlock a) σ1 = Blocks).
    { intros cb Hcb. simpl. unfold map_keys at 1.
      unfold mbind, M_bind. simpl. rewrite HX.
      rewrite decide_True by done. by rewrite Hcb. }
    assert (Hwait : forall (A : Type) (k : M A), (Lock a;; k) σ1 = Blocks).
    { intros A k'. by apply (Lock_waits a t1). }
    repeat split; intros; rewrite Hhead; apply Hblock.
    + unfold mbind at 1, M_bind at 1. unfold Add. by rewrite Hwait.
    + unfold mbind at 1, M_bind at 1. unfold Remove. by rewrite Hwait.
    + unfold mbind at 1, M_bind at 1. unfold Clear. by rewrite Hwait.
    + unfold mbind at 1, M_bind at 1. unfold Pop. by rewrite Hwait.
  - rewrite Hhead.
    destruct (each_loop_reading a t1 X ks σ1 Ha1 eq_refl HX)
      as (σ2 & Hrun & (Hm & Hs & Hc) & Hk).
    simpl in Hrun.
    eexists. split.
    + rewrite (run_bind _ _ _ _ _ Hrun).
      unfold_steps. rewrite Hs. simpl. rewrite lookup_insert_eq. simpl. reflexivity.
    + unfold same_heap. simpl. rewrite Hs, Hm, Hc. simpl.
      rewrite insert_insert_eq. repeat split. by apply insert_id.
Qed.

End EachProperties.

(** *** The goroutines of Iter and Iterator *)

Section Goroutines.

Variable order : nat -> list value -> list value.

Lemma Iterator_run_app set g os1 os2 σ g1 out1 σ1 g2 out2 σ2 :
  Iterator_run order set g os1 σ = Ok (g1, out1) σ1 ->
  Iterator_run order set g1 os2 σ1 = Ok (g2, out2) σ2 ->
  Iterator_run order set g (os1 ++ os2) σ = Ok (g2, out1 ++ out2) σ2.
Proof.
  revert g σ out1. induction os1 as [|o os1 IH]; intros g σ out1 H1 H2.
  - simpl in H1. injection H1 as -> <- ->. done.
  - simpl in *. unfold mbind, M_bind in *.
    destruct (Iterator_step order set g o σ) as [[g' out] σ'| |]; try done.
    simpl in *.
    destruct (Iterator_run order set g' os1 σ') as [[g'' out'] σ''| |] eqn:E;
      try done.
    simpl in H1. unfold mret, M_ret in H1. injection H1 as -> <- ->.
    rewrite (IH g' σ' out' E H2). simpl. unfold mret, M_ret.
    by rewrite app_assoc.
Qed.

Lemma Iterator_run_receive set rest j σ :
  j <= length rest ->
  Iterator_run order set (GoSending rest) (replicate j Receive) σ =
    Ok (GoSending (drop j rest), take j rest) σ.
Proof.
  revert rest. induction j as [|j IH]; intros rest Hj.
  - by rewrite drop_0.
  - destruct rest as [|k rest]; [simpl in Hj; lia|].
    simpl. unfold mbind, M_bind, mret, M_ret. simpl.
    rewrite IH by (simpl in Hj; lia). done.
Qed.

Hypothesis order_perm : forall k ks, order k ks ≡ₚ ks.

(** The first step: the goroutine takes the read lock and starts the loop. *)
Lemma Iterator_step_start a ma ra X o σ :
  structs σ !! a = Some {| s := ma; l := {| writer := false; readers := ra |} |} ->
  maps σ !! ma = Some X ->
  Iterator_step order a GoStart o σ =
    Ok (GoSending (order (tick σ) (elements X)), None)
       {| maps := maps σ;
          structs := <[a := {| s := ma; l := {| writer := false; readers := S ra |} |}]>
                       (structs σ);
          cells := cells σ; tick := S (tick σ);
          trace := trace σ ++ [EvRLock a] |}.
Proof using Type.
  intros Ha HX. unfold Iterator_step. unfold_steps. rewrite Ha. simpl.
  rewrite lookup_insert_eq. simpl. rewrite HX. done.
Qed.

(** The last two steps: out of the loop, the goroutine closes the channel
    and gives the read lock back. *)
Lemma Iterator_run_end a ma ra rest o1 o2 σ :
  structs σ !! a = Some {| s := ma; l := {| writer := false; readers := S ra |} |} ->
  (rest = [] \/ o1 = Stop) ->
  Iterator_run order a (GoSending rest) [o1; o2] σ =
    Ok (GoDone, [])
       {| maps := maps σ;
          structs := <[a := {| s := ma; l := {| writer := false; readers := ra |} |}]>
                       (structs σ);
          cells := cells σ; tick := tick σ;
          trace := trace σ ++ [EvRUnlock a] |}.
Proof using Type.
  intros Ha Hend.
  assert (H1 : Iterator_step order a (GoSending rest) o1 σ = Ok (GoClosing, None) σ).
  { destruct Hend as [->| ->]; [done|]. by destruct rest. }
  simpl. rewrite (run_bind _ _ _ _ _ H1). simpl.
  unfold_steps. rewrite Ha. done.
Qed.

(** X11: The goroutine of [Iter] on a set without a writer. After its first step
    and until it has handed over every element and run its last step, it
    holds the read lock: whatever the number of elements received so far,
    [Add], [Remove] and [Clear] on the set wait, and a consumer that stops
    receiving leaves them waiting. A consumer that drains the channel has
    received every element once; two steps later the lock is given back and
    the heap is as it was. *)
Theorem Iter_holds_the_read_lock_until_drained (a ma : loc) (ra : nat)
    (X : gset value) (σ : state) :
  structs σ !! a = Some {| s := ma; l := {| writer := false; readers := ra |} |} ->
  maps σ !! ma = Some X ->
  (forall j, j <= size X ->
     exists σj,
       Iter_run order a GoStart (S j) σ =
         Ok (GoSending (drop j (order (tick σ) (elements X))),
             take j (order (tick σ) (elements X))) σj /\
       structs σj !! a =
         Some {| s := ma; l := {| writer := false; readers := S ra |} |} /\
       maps σj = maps σ /\
       (forall e, Add a e σj = Blocks) /\
       (forall e, Remove a e σj = Blocks) /\
       Clear a σj = Blocks) /\
  (exists σ',
     Iter_run order a GoStart (size X + 3) σ =
       Ok (GoDone, order (tick σ) (elements X)) σ' /\
     same_heap σ σ' /\
     NoDup (order (tick σ) (elements X)) /\
     forall v, v ∈ order (tick σ) (elements X) <-> v ∈ X).
Proof.
  intros Ha HX.
  pose proof (order_perm (tick σ) (elements X)) as Hperm.
  set (ks := order (tick σ) (elements X)) in *.
  assert (Hlen : length ks = size X) by (by rewrite Hperm).
  pose proof (Iterator_step_start a ma ra X Receive σ Ha HX) as Hstart.
  fold ks in Hstart.
  set (σ1 := {| maps := maps σ;
                structs := <[a := {| s := ma; l := {| writer := false; readers := S ra |} |}]> (structs σ);
                cells := cells σ; tick := S (tick σ);
                trace := trace σ ++ [EvRLock a] |}) in *.
  assert (Ha1 : structs σ1 !! a =
                Some {| s := ma; l := {| writer := false; readers := S ra |} |})
    by apply lookup_insert_eq.
  assert (Hfirst : Iterator_run order a GoStart [Receive] σ = Ok (GoSending ks, []) σ1).
  { simpl. by rewrite (run_bind _ _ _ _ _ Hstart). }
  split.
  - intros j Hj. exists σ1. split.
    { unfold Iter_run. change (replicate (S j) Receive)
        with ([Receive] ++ replicate j Receive).
      erewrite Iterator_run_app; [|exact Hfirst|].
      2:{ apply Iterator_run_receive. lia. }
      done. }
    split; [exact Ha1|]. split; [done|].
    repeat split; intros.
    + unfold Add. by apply (Lock_waits a _ _ σ1 Ha1).
    + unfold Remove. by apply (Lock_waits a _ _ σ1 Ha1).
    + unfold Clear. by apply (Lock_waits a _ _ σ1 Ha1).
  - eexists. split.
    { unfold Iter_run.
      replace (size X + 3) with (1 + (size X + 2)) by lia.
      rewrite !replicate_add.
      erewrite Iterator_run_app; [|exact Hfirst|].
      2:{ erewrite Iterator_run_app;
            [|apply Iterator_run_receive; lia
             |apply (Iterator_run_end a ma ra); [exact Ha1|left]].
          - reflexivity.
          - rewrite <- Hlen. apply drop_all. }
      simpl. rewrite <- Hlen, firstn_all, app_nil_r. reflexivity. }
    unfold same_heap. simpl. rewrite insert_insert_eq.
    split; [split; [done|split; [by apply insert_id|done]]|].
    split.
    + rewrite Hperm. apply NoDup_elements.
    + intros v. rewrite Hperm. apply elem_of_elements.
Qed.

(** X12: The goroutine of [Iterator]: when the stop channel fires at a send, after
    any number of elements, nothing more is handed over, and with its next
    step the goroutine gives the read lock back; the heap is as it was. *)
Theorem Iterator_stop_ends_the_goroutine (a ma : loc) (ra : nat)
    (X : gset value) (j : nat) (o0 o1 : offer) (σ : state) :
  structs σ !! a = Some {| s := ma; l := {| writer := false; readers := ra |} |} ->
  maps σ !! ma = Some X ->
  j <= size X ->
  exists σ',
    Iterator_run order a GoStart (o0 :: replicate j Receive ++ [Stop; o1]) σ =
      Ok (GoDone, take j (order (tick σ) (elements X))) σ' /\
    same_heap σ σ'.
Proof.
  intros Ha HX Hj.
  pose proof (order_perm (tick σ) (elements X)) as Hperm.
  set (ks := order (tick σ) (elements X)) in *.
  assert (Hlen : length ks = size X) by (by rewrite Hperm).
  pose proof (Iterator_step_start a ma ra X o0 σ Ha HX) as Hstart.
  fold ks in Hstart.
  set (σ1 := {| maps := maps σ;
                structs := <[a := {| s := ma; l := {| writer := false; readers := S ra |} |}]> (structs σ);
                cells := cells σ; tick := S (tick σ);
                trace := trace σ ++ [EvRLock a] |}) in *.
  assert (Ha1 : structs σ1 !! a =
                Some {| s := ma; l := {| writer := false; readers := S ra |} |})
    by apply lookup_insert_eq.
  assert (Hfirst : Iterator_run order a GoStart [o0] σ = Ok (GoSending ks, []) σ1).
  { simpl. by rewrite (run_bind _ _ _ _ _ Hstart). }
  eexists. split.
  { change (o0 :: replicate j Receive ++ [Stop; o1])
      with ([o0] ++ replicate j Receive ++ [Stop; o1]).
    erewrite Iterator_run_app; [|exact Hfirst|].
    2:{ erewrite Iterator_run_app;
          [|apply Iterator_run_receive; lia
           |apply (Iterator_run_end a ma ra); [exact Ha1|by right]].
        reflexivity. }
    simpl. by rewrite app_nil_r. }
  unfold same_heap. simpl. rewrite insert_insert_eq.
  split; [done|]. split; [by apply insert_id|done].
Qed.

End Goroutines.

(** *** No lock left held *)

Lemma quiescent_update σ σ' m X :
  quiescent σ -> structs σ' = structs σ -> maps σ' = <[m := X]> (maps σ) ->
  quiescent σ'.
Proof.
  intros Hq Hs Hm a t Ha. rewrite Hs in Ha. destruct (Hq a t Ha) as [Hl Hmap].
  split; [done|]. rewrite Hm. apply lookup_insert_is_Some'. by right.
Qed.

Lemma quiescent_same σ σ' :
  quiescent σ -> structs σ' = structs σ -> maps σ' = maps σ -> quiescent σ'.
Proof. intros Hq Hs Hm a t Ha. rewrite Hm. rewrite Hs in Ha. by apply (Hq a t). Qed.

Lemma quiescent_new_set σ σ' c m X :
  quiescent σ ->
  structs σ' = <[c := {| s := m; l := unlocked |}]> (structs σ) ->
  maps σ' = <[m := X]> (maps σ) ->
  quiescent σ'.
Proof.
  intros Hq Hs Hm a t Ha. rewrite Hs in Ha. rewrite Hm.
  apply lookup_insert_Some in Ha as [[<- <-]|[_ Ha]].
  - split; [done|]. simpl. apply lookup_insert_is_Some'. by left.
  - destruct (Hq a t Ha) as [Hl Hmap]. split; [done|].
    apply lookup_insert_is_Some'. by right.
Qed.

Lemma PowerSet_loop_quiescent r m0 items : forall σ σ',
  for_each items (fun subset =>
    unsafeSubset ← value_as_unsafe subset;
    m ← deref unsafeSubset;
    x ← new_struct m;
    _ ← Add r (VSafe x);
    mret tt) σ = Ok tt σ' ->
  structs σ !! r = Some {| s := m0; l := unlocked |} ->
  Forall (fun v => exists c m, v = VUnsafe (PCell c) /\ cells σ !! c = Some m /\
                               is_Some (maps σ !! m)) items ->
  quiescent σ ->
  quiescent σ'.
Proof.
  induction items as [|v rest IH]; intros σ σ' Hrun Hr Hitems Hq.
  - simpl in Hrun. by injection Hrun as <-.
  - apply Forall_cons in Hitems as [(c & m & -> & Hc & Hm) Hrest].
    destruct (Hq r _ Hr) as [_ [acc Hacc]]. simpl in Hacc.
    set (x := fresh (dom (structs σ))) in *.
    assert (Hx : structs σ !! x = None) by apply fresh_dom_None.
    assert (Hxr : x ≠ r) by (intros E; rewrite E in Hx; congruence).
    set (σ1 := {| maps := maps σ;
                  structs := <[x := {| s := m; l := unlocked |}]> (structs σ);
                  cells := cells σ; tick := tick σ; trace := trace σ |}).
    destruct (Add_run r m0 acc (VSafe x) σ1) as (σ2 & HAdd & Hs2 & Hc2 & Hk2 & Hm2).
    { simpl. by rewrite lookup_insert_ne. }
    { done. }
    simpl in Hs2, Hc2, Hm2.
    assert (Hrun2 : for_each rest (fun subset =>
              unsafeSubset ← value_as_unsafe subset;
              m ← deref unsafeSubset;
              x ← new_struct m;
              _ ← Add r (VSafe x);
              mret tt) σ2 = Ok tt σ').
    { rewrite <- Hrun. simpl. unfold value_as_unsafe, deref, new_struct.
      unfold mbind, M_bind, mret, M_ret. simpl. rewrite Hc. fold x σ1.
      by rewrite HAdd. }
    apply (IH σ2 σ' Hrun2).
    + rewrite Hs2. by rewrite lookup_insert_ne.
    + eapply Forall_impl; [exact Hrest|]. simpl.
      intros v (c' & m' & -> & Hc' & Hm'). exists c', m'.
      split; [done|]. rewrite Hc2. split; [done|].
      rewrite Hm2. apply lookup_insert_is_Some'. by right.
    + intros a t Ha. rewrite Hs2 in Ha. rewrite Hm2.
      apply lookup_insert_Some in Ha as [[<- <-]|[_ Ha]].
      * split; [done|]. apply lookup_insert_is_Some'. by right.
      * destruct (Hq a t Ha) as [Hl Hmap]. split; [done|].
        apply lookup_insert_is_Some'. by right.
Qed.

Section Quiescence.

Variable order : nat -> list value -> list value.
Hypothesis order_perm : forall k ks, order k ks ≡ₚ ks.
Variable json_encode : list value -> option (list Byte.byte).
Variable json_decode : list Byte.byte -> option (list value).

(** [PowerSet] up to its loop: the state in which the loop starts. *)
Lemma PowerSet_before_the_loop a ta X σ :
  structs σ !! a = Some ta -> writer (l ta) = false ->
  maps σ !! s ta = Some X ->
  exists c m0 items σ5,
    (forall σ',
       for_each items (fun subset =>
         unsafeSubset ← value_as_unsafe subset;
         m ← deref unsafeSubset;
         x ← new_struct m;
         _ ← Add c (VSafe x);
         mret tt) σ5 = Ok tt σ' ->
       PowerSet order a σ = Ok (ISafe c) σ') /\
    structs σ5 = <[c := {| s := m0; l := unlocked |}]> (structs σ) /\
    structs σ !! c = None /\
    maps σ ⊆ maps σ5 /\
    maps σ5 !! m0 = Some ∅ /\
    Forall (fun v => exists c' m, v = VUnsafe (PCell c') /\
                                  cells σ5 !! c' = Some m /\
                                  is_Some (maps σ5 !! m)) items.
Proof.
  intros Ha Hwa HX.
  destruct ta as [ma [wa ra]]; simpl in *; subst.
  set (σ1 := {| maps := maps σ;
                structs := <[a := {| s := ma; l := {| writer := false; readers := S ra |} |}]> (structs σ);
                cells := cells σ; tick := tick σ; trace := trace σ ++ [EvRLock a] |}).
  assert (HRL : RLock a σ = Ok tt σ1).
  { unfold_steps. rewrite Ha. simpl. done. }
  assert (Hd : deref (PField a) σ1 = Ok ma σ1).
  { unfold_steps. rewrite lookup_insert_eq. done. }
  destruct (Unsafe_PowerSet_run (PField a) ma X σ1 Hd HX)
    as (ptrs & pc & pm & σ2 & Hrun & Hs & Hk & Htr & Hm & Hc & Hpc & Hpm & Hnd & Hall).
  simpl in Hs, Hk, Htr, Hm, Hc.
  set (σ3 := {| maps := maps σ2; structs := structs σ; cells := cells σ2;
                tick := tick σ; trace := trace σ ++ [EvRLock a; EvRUnlock a] |}).
  assert (HRU : RUnlock a σ2 = Ok tt σ3).
  { unfold_steps. rewrite Hs, lookup_insert_eq. simpl.
    rewrite Hs, Htr, Hk. apply Ok_eq; try done.
    - rewrite insert_insert_eq. by apply insert_id.
    - by rewrite <- app_assoc. }
  set (m0 := fresh (dom (maps σ2))). set (c := fresh (dom (structs σ))).
  assert (Hm0 : maps σ2 !! m0 = None) by apply fresh_dom_None.
  assert (Hc0 : structs σ !! c = None) by apply fresh_dom_None.
  set (items := order (tick σ) (elements (list_to_set (C := gset value) ptrs))).
  set (σ5 := {| maps := <[m0 := ∅]> (maps σ2);
                structs := <[c := {| s := m0; l := unlocked |}]> (structs σ);
                cells := cells σ2; tick := S (tick σ);
                trace := trace σ ++ [EvRLock a; EvRUnlock a] |}).
  assert (Hitems : items ≡ₚ ptrs).
  { unfold items. rewrite order_perm. by apply elements_list_to_set. }
  assert (Hne : m0 ≠ pm) by (intros E; rewrite E in Hm0; congruence).
  exists c, m0, items, σ5. split; [|split; [done|split; [done|split; [|split]]]].
  - intros σ' Hloop. unfold PowerSet. rewrite (run_bind _ _ _ _ _ HRL).
    rewrite (run_bind _ _ _ _ _ Hrun). simpl.
    unfold as_unsafe. unfold mbind at 1, M_bind at 1, mret at 1, M_ret at 1.
    rewrite (run_bind _ _ _ _ _ HRU).
    erewrite run_bind; [|reflexivity].
    erewrite run_bind; [|reflexivity].
    erewrite (run_bind (Unsafe.Iter _ _) _ _ items σ5).
    + rewrite (run_bind _ _ _ _ _ Hloop). done.
    + unfold_steps. fold m0 c. rewrite Hpc. simpl.
      rewrite lookup_insert_ne by done. rewrite Hpm. done.
  - simpl. etrans; [exact Hm|]. by apply insert_subseteq.
  - simpl. apply lookup_insert_eq.
  - simpl. rewrite Hitems. eapply Forall2_Forall_r; [exact Hall|].
    apply Forall_forall. intros v _ ys (c' & n & -> & Hc' & Hn).
    exists c', n. split; [done|]. split; [done|].
    apply lookup_insert_is_Some'. right. eauto.
Qed.

Lemma UnmarshalJSON_run_error a ta p σ :
  structs σ !! a = Some ta -> writer (l ta) = false ->
  json_decode p = None ->
  UnmarshalJSON json_decode a p σ = Ok true (log [EvRLock a; EvRUnlock a] σ).
Proof using Type.
  intros Ha Hwa Hp.
  destruct ta as [ma [wa ra]]; simpl in *; subst.
  unfold UnmarshalJSON. unfold_steps. rewrite Hp, Ha. simpl.
  eval_heap. same_state.
Qed.

(** X13: In a heap where no lock is held, every method of a thread-safe set, with
    a thread-safe set as operand where it takes one, finishes without panic
    or wait, and leaves a heap where again no lock is held and every set has
    its map: used from one goroutine, the sets never deadlock and no method
    leaves a lock behind. *)
Theorem every_method_finishes_and_frees_its_locks (a b : loc) (σ : state) :
  quiescent σ -> is_Some (structs σ !! a) -> is_Some (structs σ !! b) ->
  (forall i, finishes_quiescent (Add a i) σ) /\
  (forall i, finishes_quiescent (Remove a i) σ) /\
  finishes_quiescent (Clear a) σ /\
  finishes_quiescent (Pop order a) σ /\
  (forall i, finishes_quiescent (Contains a i) σ) /\
  finishes_quiescent (Cardinality a) σ /\
  finishes_quiescent (ToSlice order a) σ /\
  finishes_quiescent (Clone a) σ /\
  finishes_quiescent (PowerSet order a) σ /\
  finishes_quiescent (MarshalJSON order json_encode a) σ /\
  (forall p, finishes_quiescent (UnmarshalJSON json_decode a p) σ) /\
  finishes_quiescent (IsSubset a (ISafe b)) σ /\
  finishes_quiescent (IsProperSubset a (ISafe b)) σ /\
  finishes_quiescent (IsSuperset a (ISafe b)) σ /\
  finishes_quiescent (IsProperSuperset a (ISafe b)) σ /\
  finishes_quiescent (Equal a (ISafe b)) σ /\
  finishes_quiescent (Union a (ISafe b)) σ /\
  finishes_quiescent (Intersect a (ISafe b)) σ /\
  finishes_quiescent (Difference a (ISafe b)) σ /\
  finishes_quiescent (SymmetricDifference a (ISafe b)) σ /\
  finishes_quiescent (CartesianProduct a (ISafe b)) σ /\
  finishes_quiescent newThreadSafeSet σ.
Proof.
  intros Hq [ta Ha] [tb Hb].
  destruct (Hq a ta Ha) as [Hla [X HX]]. destruct (Hq b tb Hb) as [Hlb [Y HY]].
  destruct ta as [ma ka], tb as [mb kb]. simpl in *. subst ka kb.
  assert (Hbin : forall f, finishes_quiescent (binary (Unsafe.algebra f) a (ISafe b)) σ).
  { intros f. eexists _, _. split; [by eapply binary_run|].
    by eapply quiescent_new_set. }
  assert (Hread : forall (A : Type) (m : M A) (x : A) es,
            m σ = Ok x (log es σ) -> finishes_quiescent m σ).
  { intros A m x es Hm. eexists _, _. split; [exact Hm|].
    by eapply quiescent_same. }
  repeat match goal with
         | |- _ /\ _ => split
         | |- forall _, _ => intros ?
         end; try apply Hbin.
  - destruct (Add_run a ma X i σ Ha HX) as (σ' & Hrun & Hs & _ & _ & Hm).
    eexists _, _. split; [exact Hrun|]. by eapply quiescent_update.
  - eexists _, _. split; [by eapply Remove_run|]. by eapply quiescent_update.
  - eexists _, _. split; [by eapply Clear_run|]. by eapply quiescent_new_set.
  - unfold finishes_quiescent. rewrite (Pop_run order a ma X σ Ha HX).
    destruct (order (tick σ) (elements X)); eexists _, _; (split; [done|]).
    + by eapply quiescent_same.
    + by eapply quiescent_update.
  - eapply Hread. by eapply Contains_run.
  - eapply Hread. by eapply Cardinality_run.
  - eexists _, _. split; [by eapply ToSlice_run|]. by eapply quiescent_same.
  - eexists _, _. split; [by eapply Clone_run|]. by eapply quiescent_new_set.
  - destruct (PowerSet_before_the_loop a _ X σ Ha eq_refl HX)
      as (c & m0 & items & σ5 & Hpre & Hs5 & Hc & Hm5 & Hm0 & Hitems).
    assert (Hq5 : quiescent σ5).
    { intros x t Hx. rewrite Hs5 in Hx.
      apply lookup_insert_Some in Hx as [[<- <-]|[_ Hx]].
      - split; [done|]. simpl. eauto.
      - destruct (Hq x t Hx) as [Hl [Z HZ]]. split; [done|].
        exists Z. by eapply lookup_weaken. }
    destruct (PowerSet_loop c m0 items σ5 ∅) as (xs & σ' & Hloop & _).
    { rewrite Hs5. apply lookup_insert_eq. }
    { done. }
    { set_solver. }
    { eapply Forall_impl; [exact Hitems|]. simpl.
      intros v (c' & m & -> & Hc' & _). eauto. }
    exists (ISafe c), σ'. split; [by apply Hpre|].
    eapply (PowerSet_loop_quiescent c m0 items σ5 σ' Hloop); try done.
    rewrite Hs5. apply lookup_insert_eq.
  - eexists _, _. split; [by eapply MarshalJSON_run|]. by eapply quiescent_same.
  - destruct (json_decode p) as [elems|] eqn:Hp.
    + eexists _, _. split; [by eapply UnmarshalJSON_run|].
      by eapply quiescent_update.
    + eapply Hread. by eapply UnmarshalJSON_run_error.
  - eapply Hread. by eapply IsSubset_run.
  - eapply Hread. by eapply IsProperSubset_run.
  - eapply Hread. by eapply (IsSubset_run b a).
  - eapply Hread. by eapply (IsProperSubset_run b a).
  - eapply Hread. by eapply Equal_run.
  - eexists _, _. split; [reflexivity|]. simpl.
    by eapply (quiescent_new_set σ).
Qed.

End Quiescence.

(** *** Nil pointers, and Remove after Add *)

Section NilPointers.

Variable order : nat -> list value -> list value.
Variable json_encode : list value -> option (list Byte.byte).
Variable json_decode : list Byte.byte -> option (list value).

(** X14: A method called through a nil [*threadSafeSet] (an address where there
    is no struct) panics with a nil dereference at its first use of the
    lock; so does an operation on two sets whose operand is such a pointer,
    which passes the type assertion, when it comes to the operand's lock. *)
Theorem nil_set_pointer_panics (a b : loc) (tb : threadSafeSet) (σ : state) :
  structs σ !! a = None ->
  structs σ !! b = Some tb -> writer (l tb) = false ->
  (forall i, Add a i σ = Panics NilDereference) /\
  (forall i, Remove a i σ = Panics NilDereference) /\
  Clear a σ = Panics NilDereference /\
  Pop order a σ = Panics NilDereference /\
  (forall i, Contains a i σ = Panics NilDereference) /\
  Cardinality a σ = Panics NilDereference /\
  ToSlice order a σ = Panics NilDereference /\
  Clone a σ = Panics NilDereference /\
  PowerSet order a σ = Panics NilDereference /\
  (forall cb, Each order a cb σ = Panics NilDereference) /\
  MarshalJSON order json_encode a σ = Panics NilDereference /\
  (forall p, UnmarshalJSON json_decode a p σ = Panics NilDereference) /\
  (forall c, IsSubset a (ISafe c) σ = Panics NilDereference /\
             Equal a (ISafe c) σ = Panics NilDereference /\
             Union a (ISafe c) σ = Panics NilDereference) /\
  IsSubset b (ISafe a) σ = Panics NilDereference /\
  IsProperSubset b (ISafe a) σ = Panics NilDereference /\
  Equal b (ISafe a) σ = Panics NilDereference /\
  Union b (ISafe a) σ = Panics NilDereference /\
  Intersect b (ISafe a) σ = Panics NilDereference /\
  Difference b (ISafe a) σ = Panics NilDereference /\
  SymmetricDifference b (ISafe a) σ = Panics NilDereference /\
  CartesianProduct b (ISafe a) σ = Panics NilDereference.
Proof.
  intros Ha Hb Hwb.
  assert (Hne : b ≠ a) by (intros ->; congruence).
  assert (Hop : forall (A : Type) (k : M A),
            (RLock b;; RLock a;; k) σ = Panics NilDereference).
  { intros A k. unfold_steps. rewrite Hb. simpl. rewrite Hwb. simpl.
    rewrite lookup_insert_ne by done. by rewrite Ha. }
  repeat match goal with
         | |- _ /\ _ => split
         | |- forall _, _ => intros ?
         end; try apply Hop;
    unfold Add, Remove, Clear, Pop, Contains, Cardinality, ToSlice, Cardinality,
      Clone, PowerSet, Each, MarshalJSON, UnmarshalJSON, IsSubset, Equal,
      Union, binary;
    unfold_steps; by rewrite Ha.
Qed.

End NilPointers.

(** X15: [Remove] undoes an [Add] that inserted: after [Add e] has returned true,
    [Remove e] puts every map and every struct back as they were before the
    [Add]. After an [Add e] that returned false, [Remove e] takes away the
    element that was there. *)
Theorem Remove_undoes_Add (a m : loc) (X : gset value) (e : value) (σ : state) :
  structs σ !! a = Some {| s := m; l := unlocked |} ->
  maps σ !! m = Some X ->
  exists r σ1 σ2,
    Add a e σ = Ok r σ1 /\ Remove a e σ1 = Ok tt σ2 /\
    structs σ2 = structs σ /\
    maps σ2 !! m = Some (X ∖ {[e]}) /\
    (r = true -> maps σ2 = maps σ).
Proof.
  intros Ha HX.
  destruct (Add_run a m X e σ Ha HX) as (σ1 & HAdd & Hs1 & _ & _ & Hm1).
  eexists _, σ1, _. split; [exact HAdd|]. split.
  { eapply (Remove_run a m ({[e]} ∪ X)).
    - by rewrite Hs1.
    - rewrite Hm1. apply lookup_insert_eq. }
  simpl. split; [done|]. rewrite Hm1, insert_insert_eq.
  split.
  - rewrite lookup_insert_eq. f_equal. set_solver.
  - intros Hr. apply bool_decide_eq_true in Hr.
    apply insert_id. rewrite HX. f_equal. set_solver.
Qed.

(** *** The further properties at concrete sets *)

Lemma Remove_deletes_only_the_element_witness :
  exists σ', Remove 1%positive (VInt 2) two_sets = Ok tt σ' /\
             maps σ' !! 1%positive = Some ({[VInt 1; VInt 2; VInt 3]} ∖ {[VInt 2]}).
Proof.
  destruct (Remove_deletes_only_the_element 1%positive 1%positive
              {[VInt 1; VInt 2; VInt 3]} (VInt 2) two_sets eq_refl eq_refl)
    as (σ' & Hrun & _ & Hm & _).
  exists σ'. split; assumption.
Defined.

Lemma Clear_installs_a_new_map_witness :
  exists m' σ', Clear 1%positive two_sets = Ok tt σ' /\
                structs σ' !! 1%positive = Some {| s := m'; l := unlocked |} /\
                maps σ' !! m' = Some ∅.
Proof.
  destruct (Clear_installs_a_new_map 1%positive 1%positive two_sets eq_refl)
    as (m' & σ' & Hrun & _ & Hs & Hm & _).
  exists m', σ'. repeat split; assumption.
Defined.

Lemma writer_excludes_every_method_witness :
  Cardinality 1%positive being_written = Blocks /\
  Union 1%positive (ISafe 2%positive) being_written = Blocks.
Proof.
  destruct (writer_excludes_every_method order_listed encode_empty decode_12
              1%positive {| s := 1%positive; l := {| writer := true; readers := 0 |} |}
              being_written eq_refl eq_refl)
    as (_ & _ & _ & _ & _ & Hcard & _ & _ & _ & _ & _ & _ & Hbin & _).
  split; [exact Hcard|]. apply (Hbin 2%positive).
Defined.

Lemma readers_exclude_the_mutators_witness :
  Remove 1%positive (VInt 1) being_read = Blocks /\
  Clear 1%positive being_read = Blocks.
Proof.
  destruct (readers_exclude_the_mutators order_listed 1%positive
              {| s := 1%positive; l := {| writer := false; readers := 1 |} |}
              being_read eq_refl)
    as (_ & Hrem & Hclear & _).
  - simpl. lia.
  - split; [apply Hrem|exact Hclear].
Defined.

Lemma writer_on_the_operand_blocks_witness :
  Union 2%positive (ISafe 1%positive) being_written = Blocks /\
  IsSuperset 1%positive (ISafe 2%positive) being_written = Blocks.
Proof.
  destruct (writer_on_the_operand_blocks 2%positive 1%positive
              {| s := 2%positive; l := unlocked |}
              {| s := 1%positive; l := {| writer := true; readers := 0 |} |}
              being_written eq_refl eq_refl eq_refl eq_refl)
    as (_ & _ & _ & Hu & _ & _ & _ & _ & Hsup & _).
  split; assumption.
Defined.

Lemma reading_operations_change_nothing_witness :
  exists r σ', IsSubset 1%positive (ISafe 2%positive) being_read = Ok r σ' /\
               same_heap being_read σ'.
Proof.
  destruct (reading_operations_change_nothing order_listed encode_empty
              1%positive 2%positive
              {| s := 1%positive; l := {| writer := false; readers := 1 |} |}
              {| s := 2%positive; l := unlocked |}
              {[VInt 1; VInt 2; VInt 3]} {[VInt 2; VInt 3]} being_read
              eq_refl eq_refl eq_refl eq_refl eq_refl eq_refl)
    as (_ & _ & _ & _ & H & _).
  exact H.
Defined.

Lemma set_as_its_own_operand_witness :
  exists σ', Equal 2%positive (ISafe 2%positive) two_sets = Ok true σ'.
Proof.
  destruct (set_as_its_own_operand 2%positive {| s := 2%positive; l := unlocked |}
              {[VInt 2; VInt 3]} two_sets eq_refl eq_refl eq_refl)
    as (_ & _ & (σ' & H & _) & _).
  exists σ'. exact H.
Defined.

Lemma IsSuperset_locks_the_operand_first_witness :
  IsSuperset 1%positive (ISafe 2%positive) two_sets =
    Ok (bool_decide (({[VInt 2; VInt 3]} : gset value) ⊆ {[VInt 1; VInt 2; VInt 3]}))
       (log [EvRLock 2%positive; EvRLock 1%positive;
             EvRUnlock 2%positive; EvRUnlock 1%positive] two_sets).
Proof.
  apply (IsSuperset_locks_the_operand_first 1%positive 2%positive
           {| s := 1%positive; l := unlocked |} {| s := 2%positive; l := unlocked |}
           {[VInt 1; VInt 2; VInt 3]} {[VInt 2; VInt 3]} two_sets);
    reflexivity.
Defined.

Lemma Each_copies_until_the_callback_stops_witness :
  exists σ',
    Each order_listed 1%positive
      (fun v => _ ← Add 2%positive v; mret false) two_sets = Ok tt σ' /\
    maps σ' !! 2%positive =
      Some ({[VInt 1; VInt 2; VInt 3]} ∪ {[VInt 2; VInt 3]}).
Proof.
  destruct (Each_copies_until_the_callback_stops order_listed
              (fun _ ks => Permutation_refl ks) (fun _ => false)
              1%positive 2%positive 2%positive
              {| s := 1%positive; l := unlocked |}
              {[VInt 1; VInt 2; VInt 3]} {[VInt 2; VInt 3]} two_sets)
    as (σ' & Hrun & _ & _ & _ & Hall); try reflexivity.
  { discriminate. }
  exists σ'. split; [exact Hrun|]. apply Hall. reflexivity.
Defined.

Lemma Each_holds_the_lock_around_the_callback_witness :
  Each order_listed 1%positive
    (fun v => _ ← Add 1%positive (VInt 9); mret false) two_sets = Blocks.
Proof.
  destruct (Each_holds_the_lock_around_the_callback order_listed
              (fun _ ks => Permutation_refl ks) 1%positive
              {| s := 1%positive; l := unlocked |}
              {[VInt 1; VInt 2; VInt 3]} two_sets eq_refl eq_refl eq_refl)
    as (_ & Hblock & _).
  destruct Hblock as (HAdd & _).
  - intros E. apply (f_equal size) in E. vm_compute in E. discriminate.
  - apply HAdd.
Defined.

Lemma Iter_holds_the_read_lock_until_drained_witness :
  (exists σj, Iter_run order_listed 2%positive GoStart 2 two_sets =
                Ok (GoSending (drop 1 (elements ({[VInt 2; VInt 3]} : gset value))),
                    take 1 (elements ({[VInt 2; VInt 3]} : gset value))) σj /\
              Clear 2%positive σj = Blocks) /\
  (exists σ', Iter_run order_listed 2%positive GoStart
                (size ({[VInt 2; VInt 3]} : gset value) + 3) two_sets =
                Ok (GoDone, elements ({[VInt 2; VInt 3]} : gset value)) σ' /\
              same_heap two_sets σ').
Proof.
  destruct (Iter_holds_the_read_lock_until_drained order_listed
              (fun _ ks => Permutation_refl ks) 2%positive 2%positive 0
              {[VInt 2; VInt 3]} two_sets eq_refl eq_refl)
    as (Hheld & σ' & Hrun & Hsame & _).
  split.
  - destruct (Hheld 1) as (σj & Hj & _ & _ & _ & _ & Hclear).
    { vm_compute. lia. }
    exists σj. split; assumption.
  - exists σ'. split; assumption.
Defined.

Lemma Iterator_stop_ends_the_goroutine_witness :
  exists σ',
    Iterator_run order_listed 1%positive GoStart
      [Receive; Receive; Stop; Receive] two_sets =
      Ok (GoDone, take 1 (elements ({[VInt 1; VInt 2; VInt 3]} : gset value))) σ' /\
    same_heap two_sets σ'.
Proof.
  apply (Iterator_stop_ends_the_goroutine order_listed
           (fun _ ks => Permutation_refl ks) 1%positive 1%positive 0
           {[VInt 1; VInt 2; VInt 3]} 1 Receive Receive two_sets eq_refl eq_refl).
  vm_compute. lia.
Defined.

Lemma two_sets_quiescent : quiescent two_sets.
Proof.
  intros a t Ha. simpl in Ha.
  apply lookup_insert_Some in Ha as [[<- <-]|[_ Ha]].
  - split; [done|]. by eexists.
  - apply lookup_singleton_Some in Ha as [<- <-].
    split; [done|]. by eexists.
Qed.

Lemma every_method_finishes_and_frees_its_locks_witness :
  finishes_quiescent (PowerSet order_listed 1%positive) two_sets /\
  finishes_quiescent (Union 1%positive (ISafe 2%positive)) two_sets.
Proof.
  destruct (every_method_finishes_and_frees_its_locks order_listed
              (fun _ ks => Permutation_refl ks) encode_empty decode_12
              1%positive 2%positive two_sets two_sets_quiescent)
    as (_ & _ & _ & _ & _ & _ & _ & _ & Hpow & _ & _ & _ & _ & _ & _ & _ & Hu & _).
  - by eexists.
  - by eexists.
  - split; assumption.
Defined.

Lemma nil_set_pointer_panics_witness :
  Cardinality 3%positive two_sets = Panics NilDereference /\
  Union 1%positive (ISafe 3%positive) two_sets = Panics NilDereference.
Proof.
  destruct (nil_set_pointer_panics order_listed encode_empty decode_12
              3%positive 1%positive {| s := 1%positive; l := unlocked |}
              two_sets eq_refl eq_refl eq_refl)
    as (_ & _ & _ & _ & _ & Hcard & _ & _ & _ & _ & _ & _ & _ & _ & _ & _ & Hu & _).
  split; assumption.
Defined.

Lemma Remove_undoes_Add_witness :
  exists σ1 σ2,
    Add 2%positive (VInt 1) two_sets = Ok true σ1 /\
    Remove 2%positive (VInt 1) σ1 = Ok tt σ2 /\
    maps σ2 = maps two_sets.
Proof.
  destruct (Remove_undoes_Add 2%positive 2%positive {[VInt 2; VInt 3]} (VInt 1)
              two_sets eq_refl eq_refl)
    as (r & σ1 & σ2 & HAdd & HRem & _ & _ & Hback).
  assert (Hr : r = true).
  { assert (E : Ok r σ1 = Add 2%positive (VInt 1) two_sets) by (symmetry; exact HAdd).
    vm_compute in E. injection E as -> _. reflexivity. }
  subst r. exists σ1, σ2. split; [exact HAdd|]. split; [exact HRem|].
  apply Hback. reflexivity.
Defined.
